(** * cloudtail: stashes, event dispatch and notifiers

    A shallow embedding of [main.go], of the [notifier] package
    ([hipchat.go], [stdout.go]) and of the earlier single-file version of the
    program, with the properties of the dispatch engine proved over it.

    Conventions.
    - Go strings are byte strings compared byte by byte: [string].
    - A [*string] of the AWS SDK is an [option string]; [aws.StringValue]
      reads it.
    - A Go [map] is a [gmap]; the order in which [range] visits a map is not
      specified by the language, so every loop over a map takes the visiting
      order as an argument, constrained to be a permutation of the entries.
    - Go's [int] is taken at its 64-bit width, with wrap-around written out.
    - Calls that leave the process (standard output, the HTTP client) thread
      an explicit state. *)

From stdpp Require Import gmap strings list fin_maps pretty.
From Stdlib Require Import ZArith Lia Ascii.

Open Scope string_scope.
Open Scope Z_scope.
Open Scope list_scope.

(** ** Machine integers *)

Module GoInt.

Definition min_int : Z := - 2 ^ 63.
Definition max_int : Z := 2 ^ 63 - 1.

(** Two's complement wrap-around of a 64-bit signed [int]. *)
Definition wrap (z : Z) : Z := (z + 2 ^ 63) mod 2 ^ 64 - 2 ^ 63.

Definition add (a b : Z) : Z := wrap (a + b).

(** [len(m)] of a map, as an [int]. *)
Definition len {A} (m : gmap Z A) : Z := wrap (Z.of_nat (size m)).

End GoInt.

(** ** Events and stashes *)

Module aws.
(** [aws.StringValue]: the pointed-to string, or the empty string for nil. *)
Definition StringValue (v : option string) : string :=
  match v with
  | Some s => s
  | None => ""
  end.
End aws.

Module cloudtrail.
(** [cloudtrail.Event] of the AWS SDK: the pointer fields the program
    reads, and the raw payload, which it only hands on to the notifiers. *)
Record Event := {
  EventId : option string;
  EventName : option string;
  Username : option string;
  CloudTrailEvent : option string
}.
End cloudtrail.

(** Go's [error] values are compared with nil only; they are kept as their
    message. *)
Definition error := string.

(** The line feed that [Fprintln] and the format strings end with. *)
Definition newline : string := String "010"%char "".

(** [time.Duration] is an [int64] of nanoseconds; a [time.Time] is kept as
    the instant it denotes.  Neither is read by any function below. *)
Definition Duration := Z.
Definition Time := Z.

(** Go's [a != "" && a == b] on strings. *)
Definition nonempty_eq (a b : string) : bool :=
  negb (String.eqb a "") && String.eqb a b.

Record Stash := {
  EventName : string;
  Username : string;
  TTL : Duration;
  Expiration : Time;
  Regex : string;
  ResourceName : string;
  ResourceType : string;
  Description : string;
  Destinations : list string
}.

(** [func (s *Stash) discard(event cloudtrail.Event, dest string) bool] *)
Definition discard (s : Stash) (event : cloudtrail.Event) (dest : string) : bool :=
  if nonempty_eq (EventName s) (aws.StringValue (cloudtrail.EventName event)) then true
  else if nonempty_eq (Username s) (aws.StringValue (cloudtrail.Username event)) then true
  else false.

(** The zero value of [Stash]: no field set. *)
Definition empty_stash : Stash :=
  {| EventName := ""; Username := ""; TTL := 0; Expiration := 0;
     Regex := ""; ResourceName := ""; ResourceType := "";
     Description := ""; Destinations := [] |}.

(** ** The controller *)

(** The [Notifiers] interface: a value of it is the pair of its methods.
    [Send] acts on the world outside the process, of type [World]. *)
Record Notifiers (World : Type) := {
  Send : cloudtrail.Event -> World -> World * option error;
  Name : string
}.
Arguments Send {World} _ _ _.
Arguments Name {World} _.

(** [Controller].  The logger [log] is represented by the lines it is made
    to print (see [Item]); the lock [mu] orders concurrent calls and is
    modelled in [Concurrent] below. *)
Record Controller (World : Type) := {
  stashes : gmap Z Stash;
  debug : bool;
  notifiers : list (Notifiers World)
}.
Arguments stashes {World} _.
Arguments debug {World} _.
Arguments notifiers {World} _.

(** The lines [processEvent] prints through [c.log.Printf]. *)
Inductive LogLine :=
| LogMatch (stashID : Z)
| LogNoMatch (stashID : Z)
| LogDiscard (dest id : string)
| LogSendError (dest id : string) (err : error)
| LogSendOk (dest id : string).

(** What a dispatch loop does, in order: a line logged, or [Send] invoked on
    the notifier at position [sv] of the notifier sequence. *)
Inductive Item (L : Type) :=
| Logged (l : L)
| Called (sv : nat) (event : cloudtrail.Event).
Arguments Logged {L} _.
Arguments Called {L} _ _.

(** The positions on which [Send] was invoked, in order. *)
Definition calls {L} (tr : list (Item L)) : list nat :=
  omap (fun it => match it with Called sv _ => Some sv | Logged _ => None end) tr.

(** A visiting order of [range m]. *)
Definition range_of {K A} `{Countable K} (m : gmap K A) (order : list (K * A)) : Prop :=
  order ≡ₚ map_to_list m.

(** The inner loop of [processEvent], [for stashID, st := range c.stashes],
    over the entries in visiting order: the value of [discard] on leaving the
    loop and the lines logged. *)
Fixpoint scan (event : cloudtrail.Event) (name : string)
    (entries : list (Z * Stash)) : bool * list (Item LogLine) :=
  match entries with
  | [] => (false, [])
  | (stashID, st) :: rest =>
      if discard st event name then (true, [Logged (LogMatch stashID)])
      else
        let '(d, tr) := scan event name rest in
        (d, Logged (LogNoMatch stashID) :: tr)
  end.

(** Whether some stash of the map matches the event. *)
Definition suppressed (m : gmap Z Stash) (event : cloudtrail.Event) : bool :=
  existsb (fun p => discard p.2 event "") (map_to_list m).

(** The body of the outer loop of [processEvent] for the notifier [sv] at
    position [i]. *)
Definition pass {World} (i : nat) (sv : Notifiers World)
    (order : list (Z * Stash)) (event : cloudtrail.Event) (w : World)
    : World * list (Item LogLine) :=
  let name := Name sv in
  let '(discard, tr) := scan event name order in
  if discard then
    (w, tr ++ [Logged (LogDiscard name (aws.StringValue (cloudtrail.EventId event)))])
  else
    let '(w', err) := Send sv event w in
    match err with
    | Some err =>
        (w', tr ++ [Called i event;
                    Logged (LogSendError name (aws.StringValue (cloudtrail.EventId event)) err)])
    | None =>
        (w', tr ++ [Called i event;
                    Logged (LogSendOk name (aws.StringValue (cloudtrail.EventId event)))])
    end.

(** The outer loop, [for _, sv := range c.notifiers], from position [i] on;
    [orders k] is the visiting order of the stash map in iteration [k].  The
    result keeps the trace of each iteration apart. *)
Fixpoint passes {World} (i : nat) (svs : list (Notifiers World))
    (orders : nat -> list (Z * Stash)) (event : cloudtrail.Event) (w : World)
    : World * list (list (Item LogLine)) :=
  match svs with
  | [] => (w, [])
  | sv :: rest =>
      let '(w1, seg) := pass i sv (orders i) event w in
      let '(w2, segs) := passes (S i) rest orders event w1 in
      (w2, seg :: segs)
  end.

(** [func (c *Controller) processEvent(event cloudtrail.Event)]: no result;
    its effects are the final world and the trace. *)
Definition processEvent {World} (c : Controller World)
    (orders : nat -> list (Z * Stash)) (event : cloudtrail.Event) (w : World)
    : World * list (Item LogLine) :=
  let '(w', segs) := passes 0 (notifiers c) orders event w in
  (w', concat segs).

(** [func (c *Controller) addStash(s Stash) int] *)
Definition addStash {World} (c : Controller World) (s : Stash)
    : Z * Controller World :=
  let stashes_ := GoInt.len (stashes c) in
  let nextStash := GoInt.add stashes_ 1 in
  (nextStash,
   {| stashes := <[nextStash := s]> (stashes c);
      debug := debug c;
      notifiers := notifiers c |}).

(** [func (c *Controller) addNotifier(s Notifiers)] *)
Definition addNotifier {World} (c : Controller World) (s : Notifiers World)
    : Controller World :=
  {| stashes := stashes c;
     debug := debug c;
     notifiers := notifiers c ++ [s] |}.

(** [func New() *Controller] *)
Definition New {World} : Controller World :=
  {| stashes := ∅; debug := false; notifiers := [] |}.

(** The keys of a stash map are the ids from 1 to its size. *)
Definition dense {A} (m : gmap Z A) : Prop :=
  forall k, is_Some (m !! k) <-> 1 <= k <= Z.of_nat (size m).

(** Sequential [addStash] calls, with the ids they return. *)
Fixpoint addStashes {World} (c : Controller World) (ss : list Stash)
    : list Z * Controller World :=
  match ss with
  | [] => ([], c)
  | s :: rest =>
      let '(id, c1) := addStash c s in
      let '(ids, c2) := addStashes c1 rest in
      (id :: ids, c2)
  end.

(** The two registration operations, and sequences of them. *)
Inductive Op (World : Type) :=
| OpAddStash (s : Stash)
| OpAddNotifier (sv : Notifiers World).
Arguments OpAddStash {World} _.
Arguments OpAddNotifier {World} _.

Definition apply_op {World} (c : Controller World) (op : Op World)
    : Controller World :=
  match op with
  | OpAddStash s => snd (addStash c s)
  | OpAddNotifier sv => addNotifier c sv
  end.

Definition run_ops {World} (ops : list (Op World)) : Controller World :=
  foldl apply_op New ops.

Definition is_addStash {World} (op : Op World) : bool :=
  match op with
  | OpAddStash _ => true
  | OpAddNotifier _ => false
  end.

Definition addStash_count {World} (ops : list (Op World)) : nat :=
  length (filter (fun op => is_addStash op = true) ops).

(** ** The earlier single-file version *)

Module Legacy.

Record stash := {
  EventName : string;
  Username : string;
  Destinations : list string
}.

(** The [service] interface: [Send] returns nothing. *)
Record service (World : Type) := {
  Send : cloudtrail.Event -> World -> World;
  Name : string
}.
Arguments Send {World} _ _ _.
Arguments Name {World} _.

Record Controller (World : Type) := {
  stashes : gmap Z stash;
  services : list (service World)
}.
Arguments stashes {World} _.
Arguments services {World} _.

(** [func (s *stash) discard(event cloudtrail.Event, dest string) bool] *)
Definition discard (s : stash) (event : cloudtrail.Event) (dest : string) : bool :=
  if nonempty_eq (EventName s) (aws.StringValue (cloudtrail.EventName event)) then true
  else if nonempty_eq (Username s) (aws.StringValue (cloudtrail.Username event)) then true
  else false.

(** The lines [testHandler] prints. *)
Inductive LogLine :=
| LogDecodeError (err : error)
| LogMatch (stashID : Z)
| LogNoMatch (stashID : Z)
| LogSend (dest id : string)
| LogDiscard (dest id : string).

(** [for stashID, st := range c.stashes] of [testHandler]. *)
Fixpoint scan (event : cloudtrail.Event) (name : string)
    (entries : list (Z * stash)) : bool * list (Item LogLine) :=
  match entries with
  | [] => (false, [])
  | (stashID, st) :: rest =>
      if discard st event name then (true, [Logged (LogMatch stashID)])
      else
        let '(d, tr) := scan event name rest in
        (d, Logged (LogNoMatch stashID) :: tr)
  end.

(** The body of [for _, sv := range c.services] of [testHandler]. *)
Definition pass {World} (i : nat) (sv : service World)
    (order : list (Z * stash)) (event : cloudtrail.Event) (w : World)
    : World * list (Item LogLine) :=
  let name := Name sv in
  let '(discard, tr) := scan event name order in
  if negb discard then
    (Send sv event w,
     tr ++ [Logged (LogSend name (aws.StringValue (cloudtrail.EventId event)));
            Called i event])
  else
    (w, tr ++ [Logged (LogDiscard name (aws.StringValue (cloudtrail.EventId event)))]).

Fixpoint passes {World} (i : nat) (svs : list (service World))
    (orders : nat -> list (Z * stash)) (event : cloudtrail.Event) (w : World)
    : World * list (Item LogLine) :=
  match svs with
  | [] => (w, [])
  | sv :: rest =>
      let '(w1, seg) := pass i sv (orders i) event w in
      let '(w2, tr) := passes (S i) rest orders event w1 in
      (w2, seg ++ tr)
  end.

(** [func (c *Controller) testHandler(w http.ResponseWriter, r *http.Request)],
    on the outcome [decoded] of decoding the request body.  The result
    carries what the handler writes to the response: status 400 and the
    error text, or nothing. *)
Definition testHandler {World} (c : Controller World)
    (orders : nat -> list (Z * stash)) (decoded : cloudtrail.Event + error)
    (w : World) : World * list (Item LogLine) * option (Z * string) :=
  match decoded with
  | inr err => (w, [Logged (LogDecodeError err)], Some (400, err +:+ newline))
  | inl event => (passes 0 (services c) orders event w, None)
  end.

(** [func (c *Controller) addStash(s stash) int] *)
Definition addStash {World} (c : Controller World) (s : stash)
    : Z * Controller World :=
  let stashes_ := GoInt.len (stashes c) in
  let nextStash := GoInt.add stashes_ 1 in
  (nextStash,
   {| stashes := <[nextStash := s]> (stashes c); services := services c |}).

(** [func (c *Controller) addService(s service)] *)
Definition addService {World} (c : Controller World) (s : service World)
    : Controller World :=
  {| stashes := stashes c; services := services c ++ [s] |}.

(** [func New() *Controller] *)
Definition New {World} : Controller World :=
  {| stashes := ∅; services := [] |}.

End Legacy.

(** Whether some stash of the earlier version's map matches the event. *)
Definition legacy_suppressed (m : gmap Z Legacy.stash) (event : cloudtrail.Event) : bool :=
  existsb (fun p => Legacy.discard p.2 event "") (map_to_list m).

(** The fields a [Stash] shares with the earlier [stash]. *)
Definition to_legacy (s : Stash) : Legacy.stash :=
  {| Legacy.EventName := EventName s;
     Legacy.Username := Username s;
     Legacy.Destinations := Destinations s |}.

(** The same sink seen through both interfaces: same name, same effect on
    the world; the earlier [Send] drops the error. *)
Definition same_sink {World} (sv : Legacy.service World) (n : Notifiers World) : Prop :=
  Legacy.Name sv = Name n /\
  forall event w, Legacy.Send sv event w = fst (Send n event w).

(** ** Package [notifier] *)

Module notifier.

(** [HipchatDefaultEndoint] is used unless a custom endpoint is set. *)
Definition HipchatDefaultEndoint : string := "https://api.hipchat.com".

Record Hipchat := {
  Endpoint : string;
  RoomID : string;
  Token : string;
  From : string
}.

Module HipchatMessage.
Record t := { From : string; Message : string }.
End HipchatMessage.

(** The body of [for k, v := range config] in [NewHipchat]: the [switch]. *)
Definition NewHipchat_switch (h : Hipchat) (kv : string * string) : Hipchat :=
  let '(k, v) := kv in
  if String.eqb k "room" then
    {| Endpoint := Endpoint h; RoomID := v; Token := Token h; From := From h |}
  else if String.eqb k "token" then
    {| Endpoint := Endpoint h; RoomID := RoomID h; Token := v; From := From h |}
  else if String.eqb k "from" then
    {| Endpoint := Endpoint h; RoomID := RoomID h; Token := Token h; From := v |}
  else if String.eqb k "endpoint" then
    {| Endpoint := v; RoomID := RoomID h; Token := Token h; From := From h |}
  else h.

(** [NewHipchat], from a [map[string]string] to a [Hipchat] or an error, on the
    entries of [config] in the order [range] visits them.  The line the
    function prints about the new value is not part of the result. *)
Definition NewHipchat (config : list (string * string)) : Hipchat + error :=
  let h := foldl NewHipchat_switch
             {| Endpoint := ""; RoomID := ""; Token := ""; From := "" |} config in
  if String.eqb (RoomID h) "" then inr "missing room"
  else if String.eqb (Token h) "" then inr "missing token"
  else if String.eqb (From h) "" then inr "missing from"
  else if String.eqb (Endpoint h) "" then
    inl {| Endpoint := HipchatDefaultEndoint; RoomID := RoomID h;
           Token := Token h; From := From h |}
  else inl h.

(** What [net/http] exchanges: a request as [Send] builds it, and a
    response as [Send] reads it.  [Body] is what reading the response body
    to its end gives: the bytes read and the error, if any. *)
Record Request := {
  Method : string;
  URL : string;
  Header : gmap string (list string);
  Payload : string
}.

Record Response := {
  StatusCode : Z;
  Body : string * option error
}.

(** The bytes a header field name may hold: letters, digits and
    [!#$%&'*+-.^_`|~] (the table [validHeaderFieldByte] of [net/textproto]). *)
Definition validHeaderFieldByte (c : ascii) : bool :=
  let n := nat_of_ascii c in
  ((48 <=? n) && (n <=? 57) || (65 <=? n) && (n <=? 90) ||
   (97 <=? n) && (n <=? 122) ||
   bool_decide (n ∈ [33; 35; 36; 37; 38; 39; 42; 43; 45; 46; 94; 95; 96; 124; 126]))%nat.

(** The pass of [CanonicalMIMEHeaderKey] over a valid name: upper case for
    the first letter and for a letter after a dash, lower case otherwise;
    [upper] says which applies to the next byte. *)
Fixpoint canonical_from (upper : bool) (s : string) : string :=
  match s with
  | EmptyString => EmptyString
  | String c rest =>
      let n := nat_of_ascii c in
      let c' :=
        if (upper && (97 <=? n) && (n <=? 122))%nat then ascii_of_nat (n - 32)
        else if (negb upper && (65 <=? n) && (n <=? 90))%nat then ascii_of_nat (n + 32)
        else c in
      String c' (canonical_from (Ascii.eqb c' "-"%char) rest)
  end.

(** [textproto.CanonicalMIMEHeaderKey]: a name with a byte that is not
    valid in a header field name is returned as it is. *)
Definition CanonicalMIMEHeaderKey (s : string) : string :=
  if forallb validHeaderFieldByte (String.list_ascii_of_string s)
  then canonical_from true s
  else s.

(** [req.Header.Add(key, value)]: [Header] is a map from canonical names to
    the values added under them, in order. *)
Definition Header_Add (req : Request) (key value : string) : Request :=
  let key := CanonicalMIMEHeaderKey key in
  {| Method := Method req; URL := URL req;
     Header := <[key := default [] (Header req !! key) ++ [value]]> (Header req);
     Payload := Payload req |}.

(** [ioutil.ReadAll(resp.Body)] *)
Definition ioutil_ReadAll (body : string * option error) : string * option error :=
  body.

(** The library calls [Send] makes, outside this repository:
    [json.Marshal], [http.NewRequest] and [http.DefaultClient.Do], the last
    acting on the network [Net]. *)
Record Transport (Net : Type) := {
  json_Marshal : HipchatMessage.t -> string + error;
  http_NewRequest : string -> string -> string -> Request + error;
  http_DefaultClient_Do : Request -> Net -> Net * (Response + error)
}.
Arguments json_Marshal {Net} _ _.
Arguments http_NewRequest {Net} _ _ _ _.
Arguments http_DefaultClient_Do {Net} _ _ _.

Module Hipchat.

(** [func (h *Hipchat) Send(e cloudtrail.Event) error] *)
Definition Send {Net} (T : Transport Net) (h : Hipchat)
    (e : cloudtrail.Event) (net : Net) : Net * option error :=
  let url := Endpoint h +:+ "/v2/room/" +:+ RoomID h +:+ "/notification" in
  let message :=
    {| HipchatMessage.From := From h;
       HipchatMessage.Message := aws.StringValue (cloudtrail.EventId e) |} in
  match json_Marshal T message with
  | inr err => (net, Some err)
  | inl body =>
      match http_NewRequest T "POST" url body with
      | inr err => (net, Some err)
      | inl req =>
          let req := Header_Add req "Authorization" ("Bearer " +:+ Token h) in
          let req := Header_Add req "Content-type" "application/json" in
          let '(net', r) := http_DefaultClient_Do T req net in
          match r with
          | inr err => (net', Some err)
          | inl resp =>
              let '(respBody, err) := ioutil_ReadAll (Body resp) in
              if 300 <=? StatusCode resp then
                (net', Some ("unexpected status " +:+ pretty (StatusCode resp)
                             +:+ " - " +:+ respBody +:+ newline))
              else (net', None)
          end
      end
  end.

(** [func (h *Hipchat) Name() string] *)
Definition Name (h : Hipchat) : string := "Hipchat".

Definition as_Notifiers {Net} (T : Transport Net) (h : Hipchat) : Notifiers Net :=
  Build_Notifiers Net (Send T h) (Name h).

End Hipchat.

(** [Stdout] writes events to [os.Stdout].  [enc] is nil until the first
    [Send]; the only encoder ever stored is one over [os.Stdout]. *)
Inductive Encoder := json_NewEncoder_os_Stdout.

Record Stdout := { enc : option Encoder }.

Module Stdout.

(** [func (s *Stdout) Send(e cloudtrail.Event) error].  [s] is a pointer:
    the new value of the object it points to is part of the result.
    [Encode] is the method [Encode] of [json.Encoder], onto the stream
    [Console]. *)
Definition Send {Console}
    (Encode : Encoder -> cloudtrail.Event -> Console -> Console * option error)
    (s : Stdout) (e : cloudtrail.Event) (out : Console)
    : Stdout * Console * option error :=
  let en :=
    match enc s with
    | None => json_NewEncoder_os_Stdout
    | Some en => en
    end in
  let '(out', err) := Encode en e out in
  ({| enc := Some en |}, out', err).

(** [func (s *Stdout) Name() string] *)
Definition Name (s : Stdout) : string := "stdout".

(** The notifier [&Stdout{}] in a world made of the object and the
    stream. *)
Definition as_Notifiers {Console}
    (Encode : Encoder -> cloudtrail.Event -> Console -> Console * option error)
    : Notifiers (Stdout * Console) :=
  Build_Notifiers (Stdout * Console)
    (fun e '(s, out) => let '(s', out', err) := Send Encode s e out in ((s', out'), err))
    "stdout".

End Stdout.

End notifier.

(** What a configuration map gives for a key, [config[k]] in Go: the value,
    or the empty string when the key is absent. *)
Definition setting (config : gmap string string) (k : string) : string :=
  default "" (config !! k).

(** ** Concurrent calls of [processEvent]

    The HTTP server runs each request in a goroutine of its own, so
    [processEvent] runs concurrently with itself.  The model is an
    interleaving of goroutines over the memory they share, for a controller
    as [Load] builds it from a configuration naming [stdout]: the stash map
    and one [Stdout] notifier.  Each step is one access to shared memory or
    one lock operation. *)

Module Concurrent.

(** [sync.RWMutex]: the number of readers holding it and whether a writer
    holds it. *)
Record RWMutex := { readers : nat; writer : bool }.

(** The memory the calls share: the lock and the stash map of the
    controller, the field [enc] of the [Stdout] object, and the stream
    [os.Stdout], in a state of type [Console]. *)
Record Shared (Console : Type) := {
  mu : RWMutex;
  stashes : gmap Z Stash;
  s_enc : option notifier.Encoder;
  os_Stdout : Console
}.
Arguments mu {Console} _.
Arguments stashes {Console} _.
Arguments s_enc {Console} _.
Arguments os_Stdout {Console} _.

(** Where a goroutine running [processEvent] stands. *)
Inductive pc :=
| AtRLock       (* c.mu.RLock() *)
| AtStashes     (* for stashID, st := range c.stashes, for the notifier *)
| AtEncTest     (* Stdout.Send: if s.enc == nil *)
| AtEncInit     (* s.enc = json.NewEncoder(os.Stdout) *)
| AtEncode      (* return s.enc.Encode(e) *)
| AtRUnlock     (* the deferred c.mu.RUnlock() *)
| Returned.

(** A goroutine: where it stands, the event of its call, the order in which
    it visits the stash map, and what [sv.Send] returned to it, once it has
    returned. *)
Record goroutine := {
  at_pc : pc;
  event : cloudtrail.Event;
  order : list (Z * Stash);
  sent : option (option error)
}.

Definition goto (g : goroutine) (p : pc) : goroutine :=
  {| at_pc := p; event := event g; order := order g; sent := sent g |}.

Definition State (Console : Type) : Type := (Shared Console * list goroutine)%type.

Section Steps.
Context {Console : Type}.
(** The method [Encode] of [json.Encoder], onto the stream: the new state of
    the stream and the error, if any. *)
Context (Encode : notifier.Encoder -> cloudtrail.Event -> Console -> Console * option error).

(** One step of a goroutine; [None] when it is blocked or has returned.  At
    [AtEncode] the call applies [Encode] of the stored encoder to the stream
    and keeps its result; on a nil [s.enc] the call panics there, and the
    deferred [RUnlock] still runs. *)
Definition step1 (sh : Shared Console) (g : goroutine)
    : option (Shared Console * goroutine) :=
  match at_pc g with
  | AtRLock =>
      if writer (mu sh) then None
      else Some ({| mu := {| readers := S (readers (mu sh)); writer := false |};
                    stashes := stashes sh; s_enc := s_enc sh;
                    os_Stdout := os_Stdout sh |}, goto g AtStashes)
  | AtStashes =>
      if fst (scan (event g) "stdout" (order g)) then Some (sh, goto g AtRUnlock)
      else Some (sh, goto g AtEncTest)
  | AtEncTest =>
      match s_enc sh with
      | None => Some (sh, goto g AtEncInit)
      | Some _ => Some (sh, goto g AtEncode)
      end
  | AtEncInit =>
      Some ({| mu := mu sh; stashes := stashes sh;
               s_enc := Some notifier.json_NewEncoder_os_Stdout;
               os_Stdout := os_Stdout sh |}, goto g AtEncode)
  | AtEncode =>
      match s_enc sh with
      | Some en =>
          let '(out, err) := Encode en (event g) (os_Stdout sh) in
          Some ({| mu := mu sh; stashes := stashes sh; s_enc := s_enc sh;
                   os_Stdout := out |},
                {| at_pc := AtRUnlock; event := event g; order := order g;
                   sent := Some err |})
      | None => Some (sh, goto g AtRUnlock)
      end
  | AtRUnlock =>
      Some ({| mu := {| readers := pred (readers (mu sh)); writer := writer (mu sh) |};
               stashes := stashes sh; s_enc := s_enc sh;
               os_Stdout := os_Stdout sh |}, goto g Returned)
  | Returned => None
  end.

(** Goroutine [tid] takes a step. *)
Definition step (tid : nat) (st : State Console) : option (State Console) :=
  let '(sh, gs) := st in
  match gs !! tid with
  | None => None
  | Some g =>
      match step1 sh g with
      | None => None
      | Some (sh', g') => Some (sh', <[tid := g']> gs)
      end
  end.

(** A schedule: the goroutine to run at each step. *)
Fixpoint run (schedule : list nat) (st : State Console) : option (State Console) :=
  match schedule with
  | [] => Some st
  | tid :: rest =>
      match step tid st with
      | None => None
      | Some st' => run rest st'
      end
  end.

End Steps.

(** The access to the field [s.enc] of the shared [Stdout] object that a
    goroutine is about to make. *)
Inductive access := Read | Write.

Definition next_access (p : pc) : option access :=
  match p with
  | AtEncTest => Some Read
  | AtEncInit => Some Write
  | AtEncode => Some Read
  | _ => None
  end.

Definition conflict (a b : option access) : bool :=
  match a, b with
  | Some Write, Some _ => true
  | Some _, Some Write => true
  | _, _ => false
  end.

(** A data race on [s.enc]: two goroutines are about to access it, one of
    them writing, and nothing orders the two accesses (a read lock does not
    exclude another read lock). *)
Definition race {Console} (st : State Console) : Prop :=
  exists i j gi gj,
    i <> j /\ st.2 !! i = Some gi /\ st.2 !! j = Some gj /\
    conflict (next_access (at_pc gi)) (next_access (at_pc gj)) = true.

(** The controller after [Load], before any [Send], with the stream in the
    state [out], and one goroutine per call [processEvent(event)], each with
    its own visiting order of the stash map. *)
Definition init {Console} (out : Console) (m : gmap Z Stash)
    (requests : list (cloudtrail.Event * list (Z * Stash))) : State Console :=
  ({| mu := {| readers := 0; writer := false |}; stashes := m;
      s_enc := None; os_Stdout := out |},
   map (fun r => {| at_pc := AtRLock; event := r.1; order := r.2; sent := None |})
     requests).

End Concurrent.

(** ** The HTTP handlers and [Load] *)

(** What a handler writes to its [http.ResponseWriter]: the status passed to
    [WriteHeader], if it calls it, and the text written as body. *)
Record Reply := {
  WriteHeader : option Z;
  written : string
}.

(** The lines the handlers print, next to those of [processEvent]. *)
Inductive HandlerLine :=
| LogDecodeEvent (err : error)
| LogDecodeStash (err : error)
| LogAddStash (id : Z)
| InProcessEvent (l : LogLine).

Definition in_handler (it : Item LogLine) : Item HandlerLine :=
  match it with
  | Logged l => Logged (InProcessEvent l)
  | Called sv event => Called sv event
  end.

(** [func (c *Controller) testHandler(w http.ResponseWriter, r *http.Request)],
    on the outcome [decoded] of decoding the request body. *)
Definition testHandler {World} (c : Controller World)
    (orders : nat -> list (Z * Stash)) (decoded : cloudtrail.Event + error)
    (w : World) : World * list (Item HandlerLine) * Reply :=
  match decoded with
  | inr err =>
      (w, [Logged (LogDecodeEvent err)],
       {| WriteHeader := Some 400; written := err +:+ newline |})
  | inl event =>
      let '(w', tr) := processEvent c orders event w in
      (w', map in_handler tr, {| WriteHeader := None; written := "" |})
  end.

(** [func (c *Controller) stashPOSTHandler(w http.ResponseWriter, r *http.Request)],
    on the outcome [decoded] of decoding the request body. *)
Definition stashPOSTHandler {World} (c : Controller World)
    (decoded : Stash + error) : Controller World * list HandlerLine * Reply :=
  match decoded with
  | inr err =>
      (c, [LogDecodeStash err],
       {| WriteHeader := Some 400; written := err +:+ newline |})
  | inl s =>
      let '(id, c') := addStash c s in
      (c', [LogAddStash id],
       {| WriteHeader := None;
          written := "stash " +:+ pretty id +:+ " added" +:+ newline |})
  end.

(** A series of requests to [/stash], served one after the other: the
    controller they leave and the replies, in order. *)
Fixpoint serve_stash_posts {World} (c : Controller World)
    (requests : list (Stash + error)) : Controller World * list Reply :=
  match requests with
  | [] => (c, [])
  | decoded :: rest =>
      let '(c1, _, reply) := stashPOSTHandler c decoded in
      let '(c2, replies) := serve_stash_posts c1 rest in
      (c2, reply :: replies)
  end.

(** The replies such a series is to get when [n] stashes are stored before
    it: each decoded stash is told the next id, each failure gets 400. *)
Fixpoint stash_post_replies (n : Z) (requests : list (Stash + error)) : list Reply :=
  match requests with
  | [] => []
  | inl _ :: rest =>
      {| WriteHeader := None;
         written := "stash " +:+ pretty (n + 1) +:+ " added" +:+ newline |}
      :: stash_post_replies (n + 1) rest
  | inr err :: rest =>
      {| WriteHeader := Some 400; written := err +:+ newline |}
      :: stash_post_replies n rest
  end.

(** The stashes of the requests that decoded. *)
Definition decoded_stashes (requests : list (Stash + error)) : list Stash :=
  omap (fun r => match r with inl s => Some s | inr _ => None end) requests.

Module Config.
(** [Config] holds the configuration for the notifier. *)
Record t := {
  Listen : string;
  Debug : bool;
  Notifiers : gmap string (gmap string string);
  Stashes : list Stash
}.
End Config.

(** The world of a controller built by [Load]: the [Stdout] object that
    [Load] allocates, the stream it writes to, and the network. *)
Definition LoadWorld (Console Net : Type) : Type :=
  (notifier.Stdout * Console * Net)%type.

(** A notifier acting on one part of that world. *)
Definition on_console {Console Net} (n : Notifiers (notifier.Stdout * Console))
    : Notifiers (LoadWorld Console Net) :=
  Build_Notifiers (LoadWorld Console Net)
    (fun e '(s, out, net) =>
       let '((s', out'), err) := Send n e (s, out) in ((s', out', net), err))
    (Name n).

Definition on_network {Console Net} (n : Notifiers Net)
    : Notifiers (LoadWorld Console Net) :=
  Build_Notifiers (LoadWorld Console Net)
    (fun e '(s, out, net) =>
       let '(net', err) := Send n e net in ((s, out, net'), err))
    (Name n).

Section Loading.
Context {Console Net : Type}.
(** The library calls behind the notifiers, and [strconv.Quote], which the
    verb [%q] applies. *)
Context (Encode : notifier.Encoder -> cloudtrail.Event -> Console -> Console * option error).
Context (T : notifier.Transport Net).
Context (Quote : string -> string).
(** The order in which [NewHipchat] visits the configuration it is given. *)
Context (visit : gmap string string -> list (string * string)).

(** The loop of [Load], [for sname, sconfig := range config.Notifiers], on
    the entries in visiting order. *)
Fixpoint Load_range (controller : Controller (LoadWorld Console Net))
    (entries : list (string * gmap string string))
    : Controller (LoadWorld Console Net) + error :=
  match entries with
  | [] => inl controller
  | (sname, sconfig) :: rest =>
      if String.eqb sname "stdout" then
        Load_range
          (addNotifier controller (on_console (notifier.Stdout.as_Notifiers Encode)))
          rest
      else if String.eqb sname "hipchat" then
        match notifier.NewHipchat (visit sconfig) with
        | inr err => inr ("could not create Hipchat notifier: " +:+ err)
        | inl hc =>
            Load_range
              (addNotifier controller (on_network (notifier.Hipchat.as_Notifiers T hc)))
              rest
        end
      else inr ("unknown notifier type " +:+ Quote sname)
  end.

(** [Load], on the outcome [decoded] of decoding the configuration read and
    on the order [entries] in which [config.Notifiers] is visited. *)
Definition Load (decoded : Config.t + error)
    (entries : list (string * gmap string string))
    : Controller (LoadWorld Console Net) + error :=
  match decoded with
  | inr err => inr err
  | inl config => Load_range New entries
  end.

End Loading.

(** A notifier entry of a configuration that [Load] accepts. *)
Definition notifier_entry_ok (sname : string) (sconfig : gmap string string) : Prop :=
  sname = "stdout" \/
  (sname = "hipchat" /\ setting sconfig "room" <> "" /\
   setting sconfig "token" <> "" /\ setting sconfig "from" <> "").

(** The name of the notifier built for a configuration key. *)
Definition notifier_name_of (sname : string) : string :=
  if String.eqb sname "stdout" then "stdout" else "Hipchat".

(** ** Instrumented transport *)

(** A transport that also keeps the list of the requests handed to
    [http.DefaultClient.Do]. *)
Definition recording {Net} (T : notifier.Transport Net)
    : notifier.Transport (Net * list notifier.Request) :=
  {| notifier.json_Marshal := notifier.json_Marshal T;
     notifier.http_NewRequest := notifier.http_NewRequest T;
     notifier.http_DefaultClient_Do := fun req '(net, issued) =>
       let '(net', r) := notifier.http_DefaultClient_Do T req net in
       ((net', issued ++ [req]), r) |}.

(** The requests [Send] is to issue: the one [http.NewRequest] builds, with
    the two headers added, when marshalling and building succeed. *)
Definition requests_of_Send {Net} (T : notifier.Transport Net)
    (h : notifier.Hipchat) (e : cloudtrail.Event) : list notifier.Request :=
  match notifier.json_Marshal T
          {| notifier.HipchatMessage.From := notifier.From h;
             notifier.HipchatMessage.Message := aws.StringValue (cloudtrail.EventId e) |} with
  | inr _ => []
  | inl body =>
      match notifier.http_NewRequest T "POST"
              (notifier.Endpoint h +:+ "/v2/room/" +:+ notifier.RoomID h +:+ "/notification")
              body with
      | inr _ => []
      | inl req =>
          [notifier.Header_Add
             (notifier.Header_Add req "Authorization" ("Bearer " +:+ notifier.Token h))
             "Content-type" "application/json"]
      end
  end.

(** ** The [stdoutService] of the earlier version *)

Module stdoutService.

Record t := { enc : option notifier.Encoder }.

(** [func (s *stdoutService) Send(e cloudtrail.Event)]: the result of
    [Encode] is dropped. *)
Definition Send {Console}
    (Encode : notifier.Encoder -> cloudtrail.Event -> Console -> Console * option error)
    (s : t) (e : cloudtrail.Event) (out : Console) : t * Console :=
  let en :=
    match enc s with
    | None => notifier.json_NewEncoder_os_Stdout
    | Some en => en
    end in
  let '(out', _) := Encode en e out in
  ({| enc := Some en |}, out').

(** [func (s *stdoutService) Name() string] *)
Definition Name (s : t) : string := "stdout".

(** The service [&stdoutService{}] in a world made of the object, kept as
    the [Stdout] object of the same shape, and the stream. *)
Definition as_service {Console}
    (Encode : notifier.Encoder -> cloudtrail.Event -> Console -> Console * option error)
    : Legacy.service (notifier.Stdout * Console) :=
  Legacy.Build_service (notifier.Stdout * Console)
    (fun e '(s, out) =>
       let '(s', out') := Send Encode {| enc := notifier.enc s |} e out in
       ({| notifier.enc := enc s' |}, out'))
    "stdout".

End stdoutService.

(** ** More on concurrent calls *)

(** The state of [Concurrent.init] with the field [s.enc] as given: nil
    before the first [Send], an encoder after it. *)
Definition init_with {Console} (en : option notifier.Encoder) (out : Console)
    (m : gmap Z Stash)
    (requests : list (cloudtrail.Event * list (Z * Stash))) : Concurrent.State Console :=
  ({| Concurrent.mu := {| Concurrent.readers := 0; Concurrent.writer := false |};
      Concurrent.stashes := m;
      Concurrent.s_enc := en;
      Concurrent.os_Stdout := out |},
   map (fun r => {| Concurrent.at_pc := Concurrent.AtRLock;
                    Concurrent.event := r.1;
                    Concurrent.order := r.2;
                    Concurrent.sent := None |}) requests).

(** The stream after [Encode] of each of the events in turn, errors or
    not. *)
Definition encode_all {Console}
    (Encode : notifier.Encoder -> cloudtrail.Event -> Console -> Console * option error)
    (out : Console) (events : list cloudtrail.Event) : Console :=
  foldl (fun out e => (Encode notifier.json_NewEncoder_os_Stdout e out).1) out events.

(** Whether a goroutine holds the read lock. *)
Definition holds_RLock (g : Concurrent.goroutine) : bool :=
  match Concurrent.at_pc g with
  | Concurrent.AtRLock | Concurrent.Returned => false
  | _ => true
  end.

(** The event a goroutine has still to write to the stream, if any. *)
Definition to_deliver (g : Concurrent.goroutine) : list cloudtrail.Event :=
  match Concurrent.at_pc g with
  | Concurrent.AtRLock | Concurrent.AtStashes =>
      if fst (scan (Concurrent.event g) "stdout" (Concurrent.order g)) then []
      else [Concurrent.event g]
  | Concurrent.AtEncTest | Concurrent.AtEncInit | Concurrent.AtEncode =>
      [Concurrent.event g]
  | Concurrent.AtRUnlock | Concurrent.Returned => []
  end.

(** ** Summaries of a dispatch *)

(** The world after [Send] of each notifier in turn. *)
Definition deliver_all {World} (svs : list (Notifiers World))
    (event : cloudtrail.Event) (w : World) : World :=
  foldl (fun w sv => (Send sv event w).1) w svs.

(** The lines of the inner loop: [action=match] and [action=noMatch]. *)
Definition is_scan_line (it : Item LogLine) : bool :=
  match it with
  | Logged (LogMatch _) | Logged (LogNoMatch _) => true
  | _ => false
  end.

(** A trace without the lines of the inner loop: per notifier, the discard
    line, or the call and its outcome. *)
Definition outcomes (tr : list (Item LogLine)) : list (Item LogLine) :=
  List.filter (fun it => negb (is_scan_line it)) tr.

(** The stashes and the notifiers a sequence of operations registers. *)
Definition added_stashes {World} (ops : list (Op World)) : list Stash :=
  omap (fun op => match op with OpAddStash s => Some s | OpAddNotifier _ => None end) ops.

Definition added_notifiers {World} (ops : list (Op World)) : list (Notifiers World) :=
  omap (fun op => match op with OpAddNotifier sv => Some sv | OpAddStash _ => None end) ops.

(** A controller of the earlier version and one of the current version that
    hold the same stashes, on the shared fields, and the same sinks. *)
Definition related {World} (lc : Legacy.Controller World) (c : Controller World) : Prop :=
  Legacy.stashes lc = to_legacy <$> stashes c /\
  Forall2 same_sink (Legacy.services lc) (notifiers c).

(** The reply of the earlier [testHandler] as a [Reply]. *)
Definition reply_of (r : option (Z * string)) : Reply :=
  match r with
  | Some (code, text) => {| WriteHeader := Some code; written := text |}
  | None => {| WriteHeader := None; written := "" |}
  end.

(** The number of goroutines that hold the read lock, and the events the
    goroutines have still to write. *)
Definition inside (gs : list Concurrent.goroutine) : nat :=
  length (List.filter holds_RLock gs).

Definition undelivered (gs : list Concurrent.goroutine) : list cloudtrail.Event :=
  concat (map to_deliver gs).

(** The lock in a state of the interleaving: no writer, and as many readers
    as goroutines inside. *)
Definition lock_inv {Console} (st : Concurrent.State Console) : Prop :=
  Concurrent.writer (Concurrent.mu st.1) = false /\
  Concurrent.readers (Concurrent.mu st.1) = inside st.2.

(** The encoder is stored and no goroutine stands before storing one. *)
Definition warm_inv {Console} (st : Concurrent.State Console) : Prop :=
  is_Some (Concurrent.s_enc st.1) /\
  Forall (fun g => Concurrent.at_pc g <> Concurrent.AtEncInit) st.2.

(** When a goroutine stands before [Encode], the encoder is stored. *)
Definition enc_ready {Console} (st : Concurrent.State Console) : Prop :=
  is_Some (Concurrent.s_enc st.1) \/
  Forall (fun g => Concurrent.at_pc g <> Concurrent.AtEncode) st.2.

(** ** Watching the calls of [Send]

    A notifier that does what the given one does and also keeps, in the
    world, the list of the calls its [Send] received: the position of the
    notifier and the event. *)
Definition observed {World} (i : nat) (sv : Notifiers World)
    : Notifiers (World * list (nat * cloudtrail.Event)) :=
  Build_Notifiers (World * list (nat * cloudtrail.Event))
    (fun e '(w, seen) =>
       let '(w', err) := Send sv e w in ((w', seen ++ [(i, e)]), err))
    (Name sv).

Fixpoint observe_from {World} (i : nat) (svs : list (Notifiers World))
    : list (Notifiers (World * list (nat * cloudtrail.Event))) :=
  match svs with
  | [] => []
  | sv :: rest => observed i sv :: observe_from (S i) rest
  end.

(** The controller with every notifier watched. *)
Definition observing {World} (c : Controller World)
    : Controller (World * list (nat * cloudtrail.Event)) :=
  {| stashes := stashes c; debug := debug c;
     notifiers := observe_from 0 (notifiers c) |}.

(** One call with the event for each of the positions. *)
Definition sends_to (positions : list nat) (event : cloudtrail.Event)
    : list (nat * cloudtrail.Event) :=
  map (fun j => (j, event)) positions.

(** ** Sample data

    Scenario data of the kind the specification lists: a stash on
    [DeleteBucket], an event it matches and one it does not, a sink whose
    [Send] always fails and a sink recording what it is sent. *)

Definition DeleteBucket_stash : Stash :=
  {| EventName := "DeleteBucket"; Username := ""; TTL := 0; Expiration := 0;
     Regex := ""; ResourceName := ""; ResourceType := "";
     Description := ""; Destinations := [] |}.

Definition DeleteBucket_event : cloudtrail.Event :=
  {| cloudtrail.EventId := Some "e1";
     cloudtrail.EventName := Some "DeleteBucket";
     cloudtrail.Username := None;
     cloudtrail.CloudTrailEvent := None |}.

Definition CreateUser_event : cloudtrail.Event :=
  {| cloudtrail.EventId := Some "e2";
     cloudtrail.EventName := Some "CreateUser";
     cloudtrail.Username := None;
     cloudtrail.CloudTrailEvent := None |}.

Definition failing_sink : Notifiers (list cloudtrail.Event) :=
  {| Send := fun e w => (w, Some "unexpected status 404 - "); Name := "Hipchat" |}.

Definition recording_sink : Notifiers (list cloudtrail.Event) :=
  {| Send := fun e w => (w ++ [e], None); Name := "stdout" |}.

Definition two_sinks : Controller (list cloudtrail.Event) :=
  addNotifier (addNotifier New failing_sink) recording_sink.

Definition two_sinks_one_stash : Controller (list cloudtrail.Event) :=
  (addStash two_sinks DeleteBucket_stash).2.

Definition alice_stash : Stash :=
  {| EventName := ""; Username := "alice"; TTL := 0; Expiration := 0;
     Regex := ""; ResourceName := ""; ResourceType := "";
     Description := ""; Destinations := [] |}.

Definition alice_DeleteBucket_event : cloudtrail.Event :=
  {| cloudtrail.EventId := Some "e5";
     cloudtrail.EventName := Some "DeleteBucket";
     cloudtrail.Username := Some "alice";
     cloudtrail.CloudTrailEvent := None |}.

Definition two_sinks_two_stashes : Controller (list cloudtrail.Event) :=
  (addStash two_sinks_one_stash alice_stash).2.

(** Two sinks and three stashes: the first does not match a [DeleteBucket]
    event without user name, the second and the third do. *)
Definition two_sinks_three_stashes : Controller (list cloudtrail.Event) :=
  (addStash (addStash (addStash two_sinks alice_stash).2 DeleteBucket_stash).2
     DeleteBucket_stash).2.

Definition in_id_order : list (Z * Stash) :=
  [(1, alice_stash); (2, DeleteBucket_stash); (3, DeleteBucket_stash)].

Definition legacy_recording_sink : Legacy.service (list cloudtrail.Event) :=
  {| Legacy.Send := fun e w => w ++ [e]; Legacy.Name := "stdout" |}.

Definition one_sink_one_stash : Controller (list cloudtrail.Event) :=
  (addStash (addNotifier New recording_sink) DeleteBucket_stash).2.

Definition legacy_one_sink_one_stash : Legacy.Controller (list cloudtrail.Event) :=
  (Legacy.addStash (Legacy.addService Legacy.New legacy_recording_sink)
     (to_legacy DeleteBucket_stash)).2.

(** A Hipchat configuration with an extra key and no endpoint. *)
Definition room_config : gmap string string :=
  <["room" := "42"]> (<["token" := "secret"]> (<["from" := "cloudtail"]>
    (<["color" := "red"]> ∅))).

Definition room_hipchat : notifier.Hipchat :=
  {| notifier.Endpoint := notifier.HipchatDefaultEndoint;
     notifier.RoomID := "42";
     notifier.Token := "secret";
     notifier.From := "cloudtail" |}.

(** A transport over the list of requests issued, whose server answers with
    the given status and whose response body is cut off before its end when
    [read_error] is set. *)
Definition answering (status : Z) (read_error : option error)
    : notifier.Transport (list notifier.Request) :=
  {| notifier.json_Marshal := fun m =>
       inl (notifier.HipchatMessage.From m +:+ ": " +:+ notifier.HipchatMessage.Message m);
     notifier.http_NewRequest := fun method url body =>
       inl {| notifier.Method := method; notifier.URL := url;
              notifier.Header := ∅; notifier.Payload := body |};
     notifier.http_DefaultClient_Do := fun req net =>
       (net ++ [req],
        inl {| notifier.StatusCode := status;
               notifier.Body := ("", read_error) |}) |}.

(** A configuration naming both notifiers, with stashes and the debug flag
    set, and the library calls of a world that records what is written. *)
Definition both_notifiers_config : Config.t :=
  {| Config.Listen := ":8888";
     Config.Debug := true;
     Config.Notifiers := <["stdout" := ∅]> (<["hipchat" := room_config]> ∅);
     Config.Stashes := [DeleteBucket_stash] |}.

Definition recording_Encode (en : notifier.Encoder) (e : cloudtrail.Event)
    (out : list cloudtrail.Event) : list cloudtrail.Event * option error :=
  (out ++ [e], None).

Definition both_notifiers_loaded
    : Controller (LoadWorld (list cloudtrail.Event) (list notifier.Request)) :=
  match Load recording_Encode (answering 200 None) id map_to_list
          (inl both_notifiers_config)
          (map_to_list (Config.Notifiers both_notifiers_config)) with
  | inl c => c
  | inr _ => New
  end.

(** A stream on which writing the event [e2] fails and any other event is
    written. *)
Definition e2_failing_Encode (en : notifier.Encoder) (e : cloudtrail.Event)
    (out : list cloudtrail.Event) : list cloudtrail.Event * option error :=
  if String.eqb (aws.StringValue (cloudtrail.EventId e)) "e2"
  then (out, Some "write /dev/stdout: broken pipe")
  else (out ++ [e], None).

Definition ListUsers_event : cloudtrail.Event :=
  {| cloudtrail.EventId := Some "e6";
     cloudtrail.EventName := Some "ListUsers";
     cloudtrail.Username := None;
     cloudtrail.CloudTrailEvent := None |}.

(** Two calls on a controller with the stash on [DeleteBucket]: one for an
    event it matches, one for an event it does not; two calls for events it
    does not match; and the state a schedule leads to. *)
Definition two_calls (en : option notifier.Encoder)
    : Concurrent.State (list cloudtrail.Event) :=
  init_with en [] (<[1 := DeleteBucket_stash]> ∅)
    [(DeleteBucket_event, [(1, DeleteBucket_stash)]);
     (CreateUser_event, [(1, DeleteBucket_stash)])].

Definition two_unmatched_calls (en : option notifier.Encoder)
    : Concurrent.State (list cloudtrail.Event) :=
  init_with en [] (<[1 := DeleteBucket_stash]> ∅)
    [(CreateUser_event, [(1, DeleteBucket_stash)]);
     (ListUsers_event, [(1, DeleteBucket_stash)])].

Definition state_after {Console}
    (Encode : notifier.Encoder -> cloudtrail.Event -> Console -> Console * option error)
    (schedule : list nat) (st : Concurrent.State Console) : Concurrent.State Console :=
  default st (Concurrent.run Encode schedule st).

(** * Properties *)

(** ** The match decision *)

Lemma nonempty_eq_spec (a b : string) :
  nonempty_eq a b = true <-> a <> "" /\ a = b.
Proof.
  unfold nonempty_eq. rewrite andb_true_iff, negb_true_iff.
  rewrite String.eqb_neq, String.eqb_eq. reflexivity.
Qed.

Lemma discard_spec (s : Stash) (event : cloudtrail.Event) (dest : string) :
  discard s event dest = true <->
  (EventName s <> "" /\ EventName s = aws.StringValue (cloudtrail.EventName event)) \/
  (Username s <> "" /\ Username s = aws.StringValue (cloudtrail.Username event)).
Proof.
  unfold discard. rewrite <- !nonempty_eq_spec.
  destruct (nonempty_eq (EventName s) _), (nonempty_eq (Username s) _);
    intuition congruence.
Qed.

Lemma discard_filters_only (s s' : Stash) (event : cloudtrail.Event) (d d' : string) :
  EventName s = EventName s' ->
  Username s = Username s' ->
  discard s event d = discard s' event d'.
Proof. unfold discard. intros -> ->. reflexivity. Qed.

(** C1. [discard] returns true exactly when the stash's event-name filter is
    non-empty and equal to the event's name, or its user-name filter is
    non-empty and equal to the event's user name (a nil field of the event
    reading as the empty string); a stash with no field set matches no event;
    and the other fields of the stash take no part: any two stashes with the
    same two filters decide alike. *)
Theorem C1_discard_decision :
  (forall (s : Stash) (event : cloudtrail.Event) (dest : string),
     discard s event dest = true <->
     (EventName s <> "" /\
      EventName s = aws.StringValue (cloudtrail.EventName event)) \/
     (Username s <> "" /\
      Username s = aws.StringValue (cloudtrail.Username event))) /\
  (forall (event : cloudtrail.Event) (dest : string),
     discard empty_stash event dest = false) /\
  (forall (s : Stash) ttl expiration regex rname rtype description destinations
          (event : cloudtrail.Event) (dest : string),
     discard {| EventName := EventName s; Username := Username s;
                TTL := ttl; Expiration := expiration; Regex := regex;
                ResourceName := rname; ResourceType := rtype;
                Description := description; Destinations := destinations |}
             event dest
     = discard s event dest).
Proof.
  split; [exact discard_spec | split].
  - intros event dest. reflexivity.
  - intros. apply discard_filters_only; reflexivity.
Qed.

Example discard_is_case_sensitive :
  discard DeleteBucket_stash DeleteBucket_event "stdout" = true /\
  discard DeleteBucket_stash
    {| cloudtrail.EventId := Some "e3";
       cloudtrail.EventName := Some "deletebucket";
       cloudtrail.Username := None;
       cloudtrail.CloudTrailEvent := None |} "stdout" = false /\
  discard DeleteBucket_stash CreateUser_event "stdout" = false.
Proof. repeat split; reflexivity. Qed.

(** ** The dispatch loop *)

Section Dispatch.
Context {World : Type}.
Implicit Types (event : cloudtrail.Event) (entries : list (Z * Stash)).
Implicit Types (sv : Notifiers World) (w : World).

Lemma scan_name_irrelevant event d1 d2 entries :
  scan event d1 entries = scan event d2 entries.
Proof.
  induction entries as [|[id st] rest IH]; simpl; [reflexivity|].
  rewrite (discard_filters_only st st event d1 d2), IH; reflexivity.
Qed.

Lemma scan_fst event name entries :
  (scan event name entries).1 = existsb (fun p => discard p.2 event "") entries.
Proof.
  induction entries as [|[id st] rest IH]; simpl; [reflexivity|].
  rewrite (discard_filters_only st st event name ""); try reflexivity.
  destruct (discard st event ""); simpl; [reflexivity|].
  destruct (scan event name rest) as [d tr]. exact IH.
Qed.

Lemma existsb_Permutation {A} (f : A -> bool) (l l' : list A) :
  l ≡ₚ l' -> existsb f l = existsb f l'.
Proof.
  intros HP. apply eq_true_iff_eq. rewrite !existsb_exists.
  split; intros (x & Hin & Hx); exists x; split; try assumption;
    apply list_elem_of_In; apply list_elem_of_In in Hin.
  - rewrite <- HP. assumption.
  - rewrite HP. assumption.
Qed.

Lemma scan_fst_range (m : gmap Z Stash) event name entries :
  range_of m entries -> (scan event name entries).1 = suppressed m event.
Proof.
  intros HP. rewrite scan_fst. unfold suppressed.
  apply existsb_Permutation. exact HP.
Qed.

Lemma suppressed_true (m : gmap Z Stash) event :
  suppressed m event = true <->
  exists id st, m !! id = Some st /\ discard st event "" = true.
Proof.
  unfold suppressed. rewrite existsb_exists. split.
  - intros ([id st] & Hin & Hd). exists id, st. split; [|exact Hd].
    apply elem_of_map_to_list. apply list_elem_of_In. exact Hin.
  - intros (id & st & Hl & Hd). exists (id, st). split; [|exact Hd].
    apply list_elem_of_In. apply elem_of_map_to_list. exact Hl.
Qed.

(** Leaving the inner loop with [discard] set: the entries visited are a
    prefix of the order that ends with the first matching stash. *)
Lemma scan_stops_at_first_match event name entries :
  (scan event name entries).1 = true ->
  exists pre id st post,
    entries = pre ++ (id, st) :: post /\
    Forall (fun p => discard p.2 event name = false) pre /\
    discard st event name = true /\
    (scan event name entries).2 =
      map (fun p => Logged (LogNoMatch p.1)) pre ++ [Logged (LogMatch id)].
Proof.
  induction entries as [|[id st] rest IH]; simpl; [discriminate|].
  destruct (discard st event name) eqn:Hd.
  - intros _. exists [], id, st, rest. simpl. auto.
  - destruct (scan event name rest) as [d tr] eqn:Hs. simpl in *.
    intros Hdt. destruct (IH Hdt) as (pre & id1 & st1 & post & -> & Hpre & Hm & Htr).
    exists ((id, st) :: pre), id1, st1, post. simpl.
    split; [reflexivity|]. split; [constructor; assumption|].
    split; [assumption|]. rewrite Htr. reflexivity.
Qed.

Lemma calls_app {L} (t1 t2 : list (Item L)) :
  calls (t1 ++ t2) = calls t1 ++ calls t2.
Proof. unfold calls. apply omap_app. Qed.

Lemma scan_calls event name entries :
  calls (scan event name entries).2 = [].
Proof.
  induction entries as [|[id st] rest IH]; simpl; [reflexivity|].
  destruct (discard st event name); [reflexivity|].
  destruct (scan event name rest) as [d tr]. simpl in *. exact IH.
Qed.

Lemma pass_calls i sv entries event w :
  calls (pass i sv entries event w).2 =
    if (scan event (Name sv) entries).1 then [] else [i].
Proof.
  unfold pass. pose proof (scan_calls event (Name sv) entries) as Hc.
  destruct (scan event (Name sv) entries) as [d tr]. simpl in *.
  destruct d.
  - simpl. rewrite calls_app, Hc. reflexivity.
  - destruct (Send sv event w) as [w' [err|]]; simpl;
      rewrite calls_app, Hc; reflexivity.
Qed.

Lemma passes_length i (svs : list (Notifiers World)) orders event w :
  length (passes i svs orders event w).2 = length svs.
Proof.
  revert i w. induction svs as [|sv rest IH]; intros i w; simpl; [reflexivity|].
  destruct (pass i sv (orders i) event w) as [w1 seg].
  specialize (IH (S i) w1).
  destruct (passes (S i) rest orders event w1) as [w2 segs]. simpl in *.
  rewrite IH. reflexivity.
Qed.

Lemma passes_lookup i (svs : list (Notifiers World)) orders event w j sv :
  svs !! j = Some sv ->
  exists wj,
    (passes i svs orders event w).2 !! j =
      Some (pass (i + j) sv (orders (i + j)%nat) event wj).2.
Proof.
  revert i w j. induction svs as [|sv0 rest IH]; intros i w j Hj; [discriminate|].
  simpl. destruct (pass i sv0 (orders i) event w) as [w1 seg] eqn:Hp.
  specialize (IH (S i) w1).
  destruct (passes (S i) rest orders event w1) as [w2 segs]. simpl in *.
  destruct j as [|j]; simpl in *.
  - injection Hj as <-. exists w. rewrite Nat.add_0_r, Hp. reflexivity.
  - destruct (IH j Hj) as [wj Hwj]. exists wj.
    rewrite Hwj. replace (i + S j)%nat with (S i + j)%nat by lia. reflexivity.
Qed.

Lemma passes_calls (m : gmap Z Stash) i (svs : list (Notifiers World)) orders event w :
  (forall k, range_of m (orders k)) ->
  calls (concat (passes i svs orders event w).2) =
    if suppressed m event then [] else seq i (length svs).
Proof.
  intros Hr. revert i w. induction svs as [|sv rest IH]; intros i w; simpl.
  - destruct (suppressed m event); reflexivity.
  - pose proof (pass_calls i sv (orders i) event w) as Hc.
    destruct (pass i sv (orders i) event w) as [w1 seg].
    specialize (IH (S i) w1).
    destruct (passes (S i) rest orders event w1) as [w2 segs]. simpl in *.
    rewrite calls_app, Hc, IH, (scan_fst_range m) by apply Hr.
    destruct (suppressed m event); reflexivity.
Qed.

Lemma processEvent_trace (c : Controller World) orders event w :
  (processEvent c orders event w).2 =
    concat (passes 0 (notifiers c) orders event w).2.
Proof.
  unfold processEvent.
  destruct (passes 0 (notifiers c) orders event w) as [w' segs]. reflexivity.
Qed.

End Dispatch.

(** C8. The decision does not depend on the destination name passed to
    [discard], nor on the stash's [Destinations]: for any two destination
    names and any replacement of the destination list the result is the
    same; hence the inner loop of [processEvent] decides and logs the same
    for every notifier name. *)
Theorem C8_discard_ignores_destination :
  forall (s : Stash) (event : cloudtrail.Event) (d1 d2 : string)
         (destinations : list string) (entries : list (Z * Stash)),
    discard s event d1 = discard s event d2 /\
    discard {| EventName := EventName s; Username := Username s;
               TTL := TTL s; Expiration := Expiration s; Regex := Regex s;
               ResourceName := ResourceName s; ResourceType := ResourceType s;
               Description := Description s; Destinations := destinations |}
            event d1
    = discard s event d2 /\
    scan event d1 entries = scan event d2 entries.
Proof.
  intros s event d1 d2 destinations entries. split; [|split].
  - reflexivity.
  - apply discard_filters_only; reflexivity.
  - apply scan_name_irrelevant.
Qed.

(** A failing first notifier and no stash: the second notifier still
    receives the event; with the stash on [DeleteBucket] registered, neither
    is called for a [DeleteBucket] event. *)
Example failing_sink_then_recording_sink :
  processEvent two_sinks (fun _ => map_to_list (stashes two_sinks))
    CreateUser_event []
  = ([CreateUser_event],
     [Called 0 CreateUser_event;
      Logged (LogSendError "Hipchat" "e2" "unexpected status 404 - ");
      Called 1 CreateUser_event;
      Logged (LogSendOk "stdout" "e2")]) /\
  processEvent two_sinks_one_stash
    (fun _ => map_to_list (stashes two_sinks_one_stash)) DeleteBucket_event []
  = ([],
     [Logged (LogMatch 1); Logged (LogDiscard "Hipchat" "e1");
      Logged (LogMatch 1); Logged (LogDiscard "stdout" "e1")]).
Proof. split; vm_compute; reflexivity. Qed.

(** ** Registration *)

Lemma wrap_in_range (z : Z) :
  GoInt.min_int <= z <= GoInt.max_int -> GoInt.wrap z = z.
Proof.
  unfold GoInt.min_int, GoInt.max_int, GoInt.wrap. intros Hz.
  rewrite Z.mod_small; lia.
Qed.

Lemma len_in_range {A} (m : gmap Z A) :
  Z.of_nat (size m) <= GoInt.max_int -> GoInt.len m = Z.of_nat (size m).
Proof.
  intros Hm. unfold GoInt.len. apply wrap_in_range.
  unfold GoInt.min_int, GoInt.max_int in *. lia.
Qed.

Lemma next_id_in_range {A} (m : gmap Z A) :
  Z.of_nat (size m) < GoInt.max_int ->
  GoInt.add (GoInt.len m) 1 = Z.of_nat (size m) + 1.
Proof.
  intros Hm. rewrite len_in_range by lia. unfold GoInt.add.
  apply wrap_in_range. unfold GoInt.min_int, GoInt.max_int in *. lia.
Qed.

Lemma dense_empty {A} : dense (∅ : gmap Z A).
Proof.
  intros k. rewrite lookup_empty, map_size_empty. split.
  - intros [x Hx]. discriminate.
  - simpl. lia.
Qed.

Lemma dense_fresh {A} (m : gmap Z A) :
  dense m -> m !! (Z.of_nat (size m) + 1) = None.
Proof.
  intros Hd. apply eq_None_not_Some. intros Hs. apply Hd in Hs. lia.
Qed.

Lemma dense_insert_next {A} (m : gmap Z A) (x : A) :
  dense m -> dense (<[Z.of_nat (size m) + 1 := x]> m).
Proof.
  intros Hd k.
  rewrite map_size_insert_None by (apply dense_fresh; exact Hd).
  destruct (decide (k = Z.of_nat (size m) + 1)) as [->|Hne].
  - rewrite lookup_insert_eq. split; [lia | eauto].
  - rewrite lookup_insert_ne by congruence. rewrite (Hd k). lia.
Qed.

Lemma dense_dom {A} (m : gmap Z A) :
  dense m -> dom m = list_to_set (seqZ 1 (Z.of_nat (size m))).
Proof.
  intros Hd. apply set_eq. intros k.
  rewrite elem_of_dom, elem_of_list_to_set, elem_of_seqZ, (Hd k). lia.
Qed.

Section Registration.
Context {World : Type}.
Implicit Types (c : Controller World) (s : Stash) (ops : list (Op World)).

(** One [addStash] on a controller whose ids are dense. *)
Lemma addStash_next c s :
  dense (stashes c) ->
  Z.of_nat (size (stashes c)) < GoInt.max_int ->
  (addStash c s).1 = Z.of_nat (size (stashes c)) + 1 /\
  stashes c !! (addStash c s).1 = None /\
  stashes (addStash c s).2 = <[Z.of_nat (size (stashes c)) + 1 := s]> (stashes c) /\
  size (stashes (addStash c s).2) = S (size (stashes c)) /\
  dense (stashes (addStash c s).2).
Proof.
  intros Hd Hlt. unfold addStash. simpl.
  rewrite next_id_in_range by exact Hlt.
  split; [reflexivity|]. split; [apply dense_fresh; exact Hd|].
  split; [reflexivity|]. split.
  - apply map_size_insert_None. apply dense_fresh. exact Hd.
  - apply dense_insert_next. exact Hd.
Qed.

Lemma addStashes_from c (ss : list Stash) :
  dense (stashes c) ->
  Z.of_nat (size (stashes c)) + Z.of_nat (length ss) <= GoInt.max_int ->
  (addStashes c ss).1 =
    seqZ (Z.of_nat (size (stashes c)) + 1) (Z.of_nat (length ss)) /\
  (forall k v, stashes c !! k = Some v ->
               stashes (addStashes c ss).2 !! k = Some v) /\
  (forall i s, ss !! i = Some s ->
     stashes (addStashes c ss).2 !! (Z.of_nat (size (stashes c)) + Z.of_nat i + 1)
     = Some s) /\
  dense (stashes (addStashes c ss).2) /\
  size (stashes (addStashes c ss).2) = (size (stashes c) + length ss)%nat.
Proof.
  revert c. induction ss as [|s rest IH]; intros c Hd Hle.
  - simpl. split; [reflexivity|]. split; [auto|].
    split; [intros i s Hi; discriminate|]. split; [exact Hd | lia].
  - simpl length in Hle.
    destruct (addStash_next c s Hd) as (Hid & Hfresh & Hm & Hsz & Hd1); [lia|].
    change (addStashes c (s :: rest))
      with (let '(id, c1) := addStash c s in
            let '(ids, c2) := addStashes c1 rest in (id :: ids, c2)).
    destruct (addStash c s) as [id c1]. simpl in Hid, Hfresh, Hm, Hsz, Hd1.
    specialize (IH c1 Hd1). rewrite Hsz in IH.
    destruct IH as (Hids & Hkeep & Hnew & Hd2 & Hsz2); [lia|].
    destruct (addStashes c1 rest) as [ids c2]. simpl in *.
    split; [|split; [|split; [|split; [exact Hd2 | lia]]]].
    + rewrite seqZ_cons by lia. rewrite Hid, Hids. f_equal. f_equal; lia.
    + intros k v Hk. apply Hkeep. rewrite Hm.
      rewrite lookup_insert_ne; [exact Hk|]. intros <-.
      rewrite <- Hid, Hfresh in Hk. discriminate.
    + intros [|i] s' Hi; simpl in Hi.
      * injection Hi as <-. apply Hkeep. rewrite Hm.
        replace (Z.of_nat (size (stashes c)) + Z.of_nat 0 + 1)
          with (Z.of_nat (size (stashes c)) + 1) by lia.
        apply lookup_insert_eq.
      * specialize (Hnew i s' Hi).
        replace (Z.of_nat (size (stashes c)) + Z.of_nat (S i) + 1)
          with (Z.of_nat (S (size (stashes c))) + Z.of_nat i + 1) by lia.
        exact Hnew.
Qed.

Lemma run_ops_snoc ops (op : Op World) :
  run_ops (ops ++ [op]) = apply_op (run_ops ops) op.
Proof. unfold run_ops. apply foldl_snoc. Qed.

Lemma addStash_count_app ops ops' :
  addStash_count (ops ++ ops') = (addStash_count ops + addStash_count ops')%nat.
Proof. unfold addStash_count. rewrite filter_app, length_app. reflexivity. Qed.

Lemma addStash_count_cons_addStash s ops :
  addStash_count (OpAddStash s :: ops) = S (addStash_count ops).
Proof. unfold addStash_count. rewrite filter_cons_True by reflexivity. reflexivity. Qed.

Lemma addStash_count_cons_addNotifier sv ops :
  addStash_count (OpAddNotifier sv :: ops) = addStash_count ops.
Proof.
  unfold addStash_count. rewrite filter_cons_False; [reflexivity|]. discriminate.
Qed.

(** The invariant of the registration operations. *)
Lemma run_ops_dense ops :
  Z.of_nat (addStash_count ops) <= GoInt.max_int ->
  dense (stashes (run_ops ops)) /\
  size (stashes (run_ops ops)) = addStash_count ops.
Proof.
  induction ops as [|op ops IH] using rev_ind; intros Hle.
  - split; [apply dense_empty | apply map_size_empty].
  - rewrite run_ops_snoc. rewrite addStash_count_app in *.
    destruct op as [s|sv].
    + change (addStash_count [OpAddStash s]) with 1%nat in *.
      change (apply_op (run_ops ops) (OpAddStash s))
        with (addStash (run_ops ops) s).2.
      destruct IH as [Hd Hsz]; [lia|].
      destruct (addStash_next (run_ops ops) s Hd) as (_ & _ & _ & Hsz1 & Hd1);
        [rewrite Hsz; lia|].
      split; [exact Hd1|]. rewrite Hsz1, Hsz. lia.
    + change (addStash_count [OpAddNotifier sv]) with 0%nat in *.
      change (stashes (apply_op (run_ops ops) (OpAddNotifier sv)))
        with (stashes (run_ops ops)).
      rewrite Nat.add_0_r in *. apply IH. exact Hle.
Qed.

End Registration.

(** C4. On a controller fresh from [New], [n] sequential [addStash] calls
    return 1, 2, ..., [n] in that order ([n] within the range of [int]); the
    [i]-th stash is then stored under id [i]; and each call of the sequence
    returns the number of stashes stored before it plus one and stores its
    stash under that id. *)
Theorem C4_addStash_ids {World : Type} (ss : list Stash) :
  Z.of_nat (length ss) <= GoInt.max_int ->
  (addStashes (New : Controller World) ss).1 = seqZ 1 (Z.of_nat (length ss)) /\
  (forall i s, ss !! i = Some s ->
     stashes (addStashes (New : Controller World) ss).2 !! (Z.of_nat i + 1) = Some s) /\
  (forall pre s post, ss = pre ++ s :: post ->
     let c := (addStashes (New : Controller World) pre).2 in
     (addStash c s).1 = Z.of_nat (size (stashes c)) + 1 /\
     stashes (addStash c s).2 !! (addStash c s).1 = Some s).
Proof.
  intros Hle.
  destruct (addStashes_from (New : Controller World) ss dense_empty)
    as (Hids & _ & Hnew & _ & _).
  { simpl. rewrite map_size_empty. lia. }
  simpl in Hids, Hnew. rewrite map_size_empty in Hids, Hnew.
  split; [exact Hids|]. split.
  - intros i s Hi. rewrite <- (Hnew i s Hi). f_equal.
  - intros pre s post ->. rewrite length_app in Hle. simpl in Hle.
    destruct (addStashes_from (New : Controller World) pre dense_empty)
      as (_ & _ & _ & Hd & Hsz).
    { simpl. rewrite map_size_empty. lia. }
    simpl in Hsz. rewrite map_size_empty in Hsz. simpl in Hsz.
    destruct (addStash_next (addStashes New pre).2 s Hd) as (Hid & _ & Hm & _ & _).
    { rewrite Hsz. lia. }
    cbv zeta. split; [exact Hid|]. rewrite Hm, Hid. apply lookup_insert_eq.
Qed.

Lemma C4_witness :
  (addStashes (New : Controller unit)
     [DeleteBucket_stash; empty_stash; DeleteBucket_stash]).1 = seqZ 1 3 /\
  (forall i s, [DeleteBucket_stash; empty_stash; DeleteBucket_stash] !! i = Some s ->
     stashes (addStashes (New : Controller unit)
                [DeleteBucket_stash; empty_stash; DeleteBucket_stash]).2
       !! (Z.of_nat i + 1) = Some s) /\
  (forall pre s post,
     [DeleteBucket_stash; empty_stash; DeleteBucket_stash] = pre ++ s :: post ->
     let c := (addStashes (New : Controller unit) pre).2 in
     (addStash c s).1 = Z.of_nat (size (stashes c)) + 1 /\
     stashes (addStash c s).2 !! (addStash c s).1 = Some s).
Proof.
  apply (C4_addStash_ids (World := unit)
           [DeleteBucket_stash; empty_stash; DeleteBucket_stash]).
  unfold GoInt.max_int. simpl. lia.
Defined.

(** C10. After any sequence of [addStash] and [addNotifier] calls on a
    controller from [New], with [n] the number of [addStash] calls among
    them ([n] within the range of [int]): the keys of the stash map are
    exactly 1, ..., [n]; the map holds [n] stashes; every [addStash] of the
    sequence wrote under an id that was not in the map before it; no key
    exceeds the number of stashes, and when the map is not empty that number
    is itself a key, the last id assigned. *)
Theorem C10_stash_ids_dense {World : Type} (ops : list (Op World)) :
  Z.of_nat (addStash_count ops) <= GoInt.max_int ->
  dom (stashes (run_ops ops)) = list_to_set (seqZ 1 (Z.of_nat (addStash_count ops))) /\
  size (stashes (run_ops ops)) = addStash_count ops /\
  (forall ops1 s ops2, ops = ops1 ++ OpAddStash s :: ops2 ->
     stashes (run_ops ops1) !! (addStash (run_ops ops1) s).1 = None /\
     (addStash (run_ops ops1) s).1 = Z.of_nat (addStash_count ops1) + 1) /\
  (forall k, k ∈ dom (stashes (run_ops ops)) ->
     1 <= k <= Z.of_nat (size (stashes (run_ops ops)))) /\
  (addStash_count ops <> 0%nat ->
     Z.of_nat (size (stashes (run_ops ops))) ∈ dom (stashes (run_ops ops))).
Proof.
  intros Hle. destruct (run_ops_dense ops Hle) as [Hd Hsz].
  split; [rewrite <- Hsz; apply dense_dom; exact Hd|].
  split; [exact Hsz|]. split; [|split].
  - intros ops1 s ops2 ->.
    rewrite addStash_count_app, addStash_count_cons_addStash in Hle.
    destruct (run_ops_dense ops1) as [Hd1 Hsz1]; [lia|].
    destruct (addStash_next (run_ops ops1) s Hd1) as (Hid & Hfresh & _).
    { rewrite Hsz1. lia. }
    split; [exact Hfresh|]. rewrite Hid, Hsz1. reflexivity.
  - intros k Hk. apply elem_of_dom in Hk. apply Hd. exact Hk.
  - intros Hne. apply elem_of_dom. apply Hd. lia.
Qed.

Lemma C10_witness :
  dom (stashes (run_ops [OpAddStash DeleteBucket_stash;
                         OpAddNotifier recording_sink;
                         OpAddStash empty_stash]))
    = list_to_set (seqZ 1 2) /\
  size (stashes (run_ops [OpAddStash DeleteBucket_stash;
                          OpAddNotifier recording_sink;
                          OpAddStash empty_stash])) = 2%nat /\
  (forall ops1 s ops2,
     [OpAddStash DeleteBucket_stash; OpAddNotifier recording_sink;
      OpAddStash empty_stash] = ops1 ++ OpAddStash s :: ops2 ->
     stashes (run_ops ops1) !! (addStash (run_ops ops1) s).1 = None /\
     (addStash (run_ops ops1) s).1 = Z.of_nat (addStash_count ops1) + 1) /\
  (forall k, k ∈ dom (stashes (run_ops [OpAddStash DeleteBucket_stash;
                                        OpAddNotifier recording_sink;
                                        OpAddStash empty_stash])) ->
     1 <= k <= Z.of_nat (size (stashes (run_ops [OpAddStash DeleteBucket_stash;
                                                 OpAddNotifier recording_sink;
                                                 OpAddStash empty_stash])))) /\
  (2%nat <> 0%nat ->
     Z.of_nat (size (stashes (run_ops [OpAddStash DeleteBucket_stash;
                                       OpAddNotifier recording_sink;
                                       OpAddStash empty_stash])))
     ∈ dom (stashes (run_ops [OpAddStash DeleteBucket_stash;
                              OpAddNotifier recording_sink;
                              OpAddStash empty_stash]))).
Proof.
  apply (C10_stash_ids_dense [OpAddStash DeleteBucket_stash;
                              OpAddNotifier recording_sink;
                              OpAddStash empty_stash]).
  apply Z.leb_le. vm_compute. reflexivity.
Defined.

(** ** The Hipchat notifier *)

Section HipchatConfig.
Import notifier.
Implicit Types (config : gmap string string) (order : list (string * string)).

(** The loop of [NewHipchat] leaves in each field the value the map has
    for its key, in whatever order the entries are visited. *)
Lemma NewHipchat_loop order (h : Hipchat) :
  NoDup order.*1 ->
  let m : gmap string string := list_to_map order in
  let h' := foldl NewHipchat_switch h order in
  RoomID h' = default (RoomID h) (m !! "room") /\
  Token h' = default (Token h) (m !! "token") /\
  From h' = default (From h) (m !! "from") /\
  Endpoint h' = default (Endpoint h) (m !! "endpoint").
Proof.
  revert h. induction order as [|[k v] rest IH]; intros h Hnd; simpl.
  - rewrite !lookup_empty. simpl. auto.
  - apply NoDup_cons in Hnd as [Hk Hnd].
    apply (not_elem_of_list_to_map_1 (M := gmap string)) in Hk. simpl in Hk.
    specialize (IH (NewHipchat_switch h (k, v)) Hnd). simpl in IH.
    destruct IH as (H1 & H2 & H3 & H4). rewrite H1, H2, H3, H4.
    unfold NewHipchat_switch.
    destruct (String.eqb_spec k "room") as [->|N1].
    { rewrite lookup_insert_eq, !lookup_insert_ne by discriminate.
      rewrite Hk. simpl. auto. }
    destruct (String.eqb_spec k "token") as [->|N2].
    { rewrite lookup_insert_eq, !lookup_insert_ne by discriminate.
      rewrite Hk. simpl. auto. }
    destruct (String.eqb_spec k "from") as [->|N3].
    { rewrite lookup_insert_eq, !lookup_insert_ne by discriminate.
      rewrite Hk. simpl. auto. }
    destruct (String.eqb_spec k "endpoint") as [->|N4].
    { rewrite lookup_insert_eq, !lookup_insert_ne by discriminate.
      rewrite Hk. simpl. auto. }
    rewrite !lookup_insert_ne by assumption. auto.
Qed.

Lemma range_list_to_map config order :
  range_of config order -> NoDup order.*1 /\ list_to_map order = config.
Proof.
  unfold range_of. intros HP.
  assert (Hnd : NoDup order.*1).
  { rewrite HP. apply NoDup_fst_map_to_list. }
  split; [exact Hnd|].
  rewrite <- (list_to_map_to_list config).
  apply list_to_map_proper; assumption.
Qed.

(** [NewHipchat] as a function of the configuration map. *)
Lemma NewHipchat_closed config order :
  range_of config order ->
  NewHipchat order =
    if String.eqb (setting config "room") "" then inr "missing room"
    else if String.eqb (setting config "token") "" then inr "missing token"
    else if String.eqb (setting config "from") "" then inr "missing from"
    else inl {| Endpoint := if String.eqb (setting config "endpoint") ""
                            then HipchatDefaultEndoint
                            else setting config "endpoint";
                RoomID := setting config "room";
                Token := setting config "token";
                From := setting config "from" |}.
Proof.
  intros Hr. apply range_list_to_map in Hr as [Hnd Hm].
  pose proof (NewHipchat_loop order
                {| Endpoint := ""; RoomID := ""; Token := ""; From := "" |} Hnd)
    as (H1 & H2 & H3 & H4).
  rewrite Hm in H1, H2, H3, H4. simpl in H1, H2, H3, H4.
  unfold NewHipchat, setting.
  destruct (foldl NewHipchat_switch _ order) as [e r t f]. simpl in *.
  subst e r t f.
  repeat (match goal with
          | |- context [String.eqb ?a ""] => destruct (String.eqb a "")
          end; try reflexivity).
Qed.

End HipchatConfig.

(** C5. [NewHipchat] returns an error exactly when the configuration gives
    no room, no token or no display name (key absent or value empty), in
    whatever order the configuration is visited.  When it succeeds the result
    has the configured room, token and name, and as endpoint the configured
    one, or the default base URL [https://api.hipchat.com] if the endpoint
    key is absent or empty.  A key other than the four recognised ones
    changes nothing. *)
Theorem C5_NewHipchat_configuration
    (config : gmap string string) (order : list (string * string)) :
  range_of config order ->
  ((exists err, notifier.NewHipchat order = inr err) <->
   (setting config "room" = "" \/ setting config "token" = "" \/
    setting config "from" = "")) /\
  (forall h, notifier.NewHipchat order = inl h ->
     notifier.RoomID h = setting config "room" /\
     notifier.Token h = setting config "token" /\
     notifier.From h = setting config "from" /\
     (setting config "endpoint" = "" ->
        notifier.Endpoint h = "https://api.hipchat.com") /\
     (setting config "endpoint" <> "" ->
        notifier.Endpoint h = setting config "endpoint")) /\
  (forall k v order',
     k <> "room" -> k <> "token" -> k <> "from" -> k <> "endpoint" ->
     range_of (<[k := v]> config) order' ->
     notifier.NewHipchat order' = notifier.NewHipchat order).
Proof.
  intros Hr. rewrite (NewHipchat_closed config order Hr).
  split; [|split].
  - destruct (String.eqb_spec (setting config "room") "") as [E1|N1];
      [split; eauto|].
    destruct (String.eqb_spec (setting config "token") "") as [E2|N2];
      [split; eauto|].
    destruct (String.eqb_spec (setting config "from") "") as [E3|N3];
      [split; eauto|].
    split; [intros [err Herr]; discriminate | intuition congruence].
  - intros h Hh.
    destruct (String.eqb (setting config "room") ""); [discriminate|].
    destruct (String.eqb (setting config "token") ""); [discriminate|].
    destruct (String.eqb (setting config "from") ""); [discriminate|].
    injection Hh as <-. simpl.
    destruct (String.eqb_spec (setting config "endpoint") "") as [E|N];
      repeat split; try reflexivity; intros; congruence.
  - intros k v order' N1 N2 N3 N4 Hr'.
    rewrite (NewHipchat_closed (<[k := v]> config) order' Hr').
    unfold setting. rewrite !lookup_insert_ne by assumption. reflexivity.
Qed.

Lemma C5_witness :
  ((exists err, notifier.NewHipchat (map_to_list room_config) = inr err) <->
   (setting room_config "room" = "" \/ setting room_config "token" = "" \/
    setting room_config "from" = "")) /\
  (forall h, notifier.NewHipchat (map_to_list room_config) = inl h ->
     notifier.RoomID h = setting room_config "room" /\
     notifier.Token h = setting room_config "token" /\
     notifier.From h = setting room_config "from" /\
     (setting room_config "endpoint" = "" ->
        notifier.Endpoint h = "https://api.hipchat.com") /\
     (setting room_config "endpoint" <> "" ->
        notifier.Endpoint h = setting room_config "endpoint")) /\
  (forall k v order',
     k <> "room" -> k <> "token" -> k <> "from" -> k <> "endpoint" ->
     range_of (<[k := v]> room_config) order' ->
     notifier.NewHipchat order' = notifier.NewHipchat (map_to_list room_config)).
Proof.
  apply (C5_NewHipchat_configuration room_config (map_to_list room_config)).
  unfold range_of. reflexivity.
Defined.

Example NewHipchat_room_config :
  notifier.NewHipchat (map_to_list room_config) = inl room_hipchat.
Proof. vm_compute. reflexivity. Qed.

Example NewHipchat_missing_token :
  notifier.NewHipchat (map_to_list (delete "token" room_config)) = inr "missing token".
Proof. vm_compute. reflexivity. Qed.

(** [Send] returns an error exactly when marshalling fails, the request
    cannot be built, the call fails, or the status is 300 or more; whether
    the response body could be read plays no part. *)
Lemma Hipchat_Send_error_iff {Net} (T : notifier.Transport Net)
    (h : notifier.Hipchat) (e : cloudtrail.Event) (net : Net) :
  is_Some (notifier.Hipchat.Send T h e net).2 <->
  (exists err, notifier.json_Marshal T
     {| notifier.HipchatMessage.From := notifier.From h;
        notifier.HipchatMessage.Message := aws.StringValue (cloudtrail.EventId e) |}
     = inr err) \/
  (exists body err, notifier.json_Marshal T
     {| notifier.HipchatMessage.From := notifier.From h;
        notifier.HipchatMessage.Message := aws.StringValue (cloudtrail.EventId e) |}
     = inl body /\
     notifier.http_NewRequest T "POST"
       (notifier.Endpoint h +:+ "/v2/room/" +:+ notifier.RoomID h +:+ "/notification")
       body = inr err) \/
  (exists body req, notifier.json_Marshal T
     {| notifier.HipchatMessage.From := notifier.From h;
        notifier.HipchatMessage.Message := aws.StringValue (cloudtrail.EventId e) |}
     = inl body /\
     notifier.http_NewRequest T "POST"
       (notifier.Endpoint h +:+ "/v2/room/" +:+ notifier.RoomID h +:+ "/notification")
       body = inl req /\
     match (notifier.http_DefaultClient_Do T
              (notifier.Header_Add
                 (notifier.Header_Add req "Authorization"
                    ("Bearer " +:+ notifier.Token h))
                 "Content-type" "application/json") net).2 with
     | inr _ => True
     | inl resp => 300 <= notifier.StatusCode resp
     end).
Proof.
  unfold notifier.Hipchat.Send. cbv zeta.
  set (url := notifier.Endpoint h +:+ "/v2/room/" +:+ notifier.RoomID h +:+ "/notification").
  set (message := {| notifier.HipchatMessage.From := notifier.From h;
                     notifier.HipchatMessage.Message :=
                       aws.StringValue (cloudtrail.EventId e) |}).
  destruct (notifier.json_Marshal T message) as [body|err].
  2:{ split; [intros _; left; exists err; reflexivity | intros _; exists err; reflexivity]. }
  destruct (notifier.http_NewRequest T "POST" url body) as [req|err] eqn:HReq.
  2:{ split; [intros _; right; left; exists body, err; split; [reflexivity | exact HReq]
             | intros _; exists err; reflexivity]. }
  destruct (notifier.http_DefaultClient_Do T _ net) as [net' [resp|err]] eqn:HDo.
  2:{ split; [intros _; right; right; exists body, req; rewrite HReq, HDo; simpl; auto
             | intros _; exists err; reflexivity]. }
  unfold notifier.ioutil_ReadAll. destruct (notifier.Body resp) as [respBody rerr].
  destruct (Z.leb_spec 300 (notifier.StatusCode resp)) as [Hge|Hlt].
  - split; [intros _; right; right; exists body, req; rewrite HReq, HDo; simpl; auto
           | intros _; eexists; reflexivity].
  - split.
    + intros [x Hx]. discriminate.
    + intros [[err Herr] | [(b & err & Hb & Herr) | (b & r & Hb & Hr & Hm)]];
        try discriminate.
      * injection Hb as <-. rewrite HReq in Herr. discriminate.
      * injection Hb as <-. rewrite HReq in Hr. injection Hr as <-.
        rewrite HDo in Hm. simpl in Hm. lia.
Qed.

Example header_names_are_canonical :
  notifier.CanonicalMIMEHeaderKey "Content-type" = "Content-Type" /\
  notifier.CanonicalMIMEHeaderKey "authorization" = "Authorization" /\
  notifier.CanonicalMIMEHeaderKey "x-FORWARDED-for" = "X-Forwarded-For" /\
  notifier.CanonicalMIMEHeaderKey "not a name" = "not a name".
Proof. repeat split; reflexivity. Qed.

(** C6. At a response with status 200 whose body cannot be read to its end,
    [Send] issues its one request and returns nil; with the same status and a
    readable body it returns nil as well, and with status 404 an error. *)
Theorem C6_Send_ignores_body_read_error :
  notifier.Hipchat.Send (answering 200 (Some "unexpected EOF"))
    room_hipchat DeleteBucket_event []
  = ([{| notifier.Method := "POST";
         notifier.URL := "https://api.hipchat.com/v2/room/42/notification";
         notifier.Header :=
           <["Authorization" := ["Bearer secret"]]>
             (<["Content-Type" := ["application/json"]]> ∅);
         notifier.Payload := "cloudtail: e1" |}],
     None) /\
  (notifier.Hipchat.Send (answering 200 None) room_hipchat DeleteBucket_event []).2
  = None /\
  (notifier.Hipchat.Send (answering 404 None) room_hipchat DeleteBucket_event []).2
  = Some ("unexpected status 404 - " +:+ newline).
Proof. repeat split; vm_compute; reflexivity. Qed.

(** ** The earlier version against the current one *)

Section LegacyAgreement.
Context {World : Type}.
Implicit Types (event : cloudtrail.Event) (w : World).

Lemma legacy_discard_shared (ls : Legacy.stash) (s : Stash) event (d d' : string) :
  Legacy.EventName ls = EventName s ->
  Legacy.Username ls = Username s ->
  Legacy.discard ls event d = discard s event d'.
Proof. unfold Legacy.discard, discard. intros -> ->. reflexivity. Qed.

Lemma legacy_scan_fst event name (entries : list (Z * Legacy.stash)) :
  (Legacy.scan event name entries).1 =
    existsb (fun p => Legacy.discard p.2 event "") entries.
Proof.
  induction entries as [|[id st] rest IH]; simpl; [reflexivity|].
  change (Legacy.discard st event name) with (Legacy.discard st event "").
  destruct (Legacy.discard st event ""); simpl; [reflexivity|].
  destruct (Legacy.scan event name rest) as [d tr]. exact IH.
Qed.

Lemma legacy_scan_calls event name (entries : list (Z * Legacy.stash)) :
  calls (Legacy.scan event name entries).2 = [].
Proof.
  induction entries as [|[id st] rest IH]; simpl; [reflexivity|].
  destruct (Legacy.discard st event name); [reflexivity|].
  destruct (Legacy.scan event name rest) as [d tr]. simpl in *. exact IH.
Qed.

Lemma legacy_suppressed_fmap (m : gmap Z Stash) event :
  legacy_suppressed (to_legacy <$> m) event = suppressed m event.
Proof.
  unfold legacy_suppressed, suppressed.
  rewrite map_to_list_fmap.
  induction (map_to_list m) as [|[id st] rest IH]; [reflexivity|].
  rewrite fmap_cons. cbn [existsb]. rewrite IH. reflexivity.
Qed.

Lemma legacy_scan_fst_range (m : gmap Z Stash) event name
    (entries : list (Z * Legacy.stash)) :
  range_of (to_legacy <$> m) entries ->
  (Legacy.scan event name entries).1 = suppressed m event.
Proof.
  intros HP. rewrite legacy_scan_fst, <- legacy_suppressed_fmap.
  apply existsb_Permutation. exact HP.
Qed.

(** Both loops, run over the same sinks from the same world, invoke [Send]
    at the same positions and leave the same world. *)
Lemma passes_agree (m : gmap Z Stash)
    (svs : list (Legacy.service World)) (ns : list (Notifiers World))
    (lorders : nat -> list (Z * Legacy.stash)) (orders : nat -> list (Z * Stash))
    event :
  (forall k, range_of (to_legacy <$> m) (lorders k)) ->
  (forall k, range_of m (orders k)) ->
  Forall2 same_sink svs ns ->
  forall i w,
    (Legacy.passes i svs lorders event w).1 = (passes i ns orders event w).1 /\
    calls (Legacy.passes i svs lorders event w).2 =
      calls (concat (passes i ns orders event w).2).
Proof.
  intros Hl Hr HF. induction HF as [|sv n svs ns [Hname Hsend] HF IH]; intros i w.
  - split; reflexivity.
  - simpl. unfold Legacy.pass, pass.
    pose proof (legacy_scan_fst_range m event (Legacy.Name sv) (lorders i) (Hl i)) as H1.
    pose proof (scan_fst_range m event (Name n) (orders i) (Hr i)) as H2.
    pose proof (legacy_scan_calls event (Legacy.Name sv) (lorders i)) as C1.
    pose proof (scan_calls event (Name n) (orders i)) as C2.
    destruct (Legacy.scan event (Legacy.Name sv) (lorders i)) as [d1 tr1].
    destruct (scan event (Name n) (orders i)) as [d2 tr2].
    simpl in H1, H2, C1, C2. subst d1 d2.
    destruct (suppressed m event); simpl.
    + specialize (IH (S i) w).
      destruct (Legacy.passes (S i) svs lorders event w) as [lw ltr].
      destruct (passes (S i) ns orders event w) as [w2 segs].
      simpl in *. destruct IH as [-> IHc]. split; [reflexivity|].
      rewrite !calls_app, C1, C2, IHc. reflexivity.
    + rewrite (Hsend event w).
      destruct (Send n event w) as [w1 err]. simpl.
      specialize (IH (S i) w1).
      destruct (Legacy.passes (S i) svs lorders event w1) as [lw ltr].
      destruct err as [err|];
        destruct (passes (S i) ns orders event w1) as [w2 segs];
        simpl in *; destruct IH as [-> IHc]; (split; [reflexivity|]);
        rewrite !calls_app, C1, C2, IHc; reflexivity.
Qed.

End LegacyAgreement.

(** C9. The two [discard] functions agree on stashes with the same
    event-name and user-name filters; and for the same stash mapping (on
    those shared fields), the same sequence of sinks and the same event, the
    dispatch loop of the earlier [testHandler] and [processEvent] invoke
    [Send] on the same notifiers, in the same order, whatever order each
    visits its stash map in, and leave the world in the same state. *)
Theorem C9_legacy_same_dispatch {World : Type}
    (lc : Legacy.Controller World) (c : Controller World)
    (lorders : nat -> list (Z * Legacy.stash)) (orders : nat -> list (Z * Stash))
    (event : cloudtrail.Event) (w : World) :
  Legacy.stashes lc = to_legacy <$> stashes c ->
  Forall2 same_sink (Legacy.services lc) (notifiers c) ->
  (forall k, range_of (Legacy.stashes lc) (lorders k)) ->
  (forall k, range_of (stashes c) (orders k)) ->
  (forall (ls : Legacy.stash) (s : Stash) e d,
     Legacy.EventName ls = EventName s ->
     Legacy.Username ls = Username s ->
     Legacy.discard ls e d = discard s e d) /\
  calls (Legacy.testHandler lc lorders (inl event) w).1.2 =
    calls (processEvent c orders event w).2 /\
  (Legacy.testHandler lc lorders (inl event) w).1.1 =
    (processEvent c orders event w).1.
Proof.
  intros Hm HF Hl Hr. rewrite Hm in Hl.
  split; [intros ls s e d; apply legacy_discard_shared|].
  destruct (passes_agree (stashes c) _ _ lorders orders event Hl Hr HF 0%nat w)
    as [Hw Hc].
  unfold Legacy.testHandler, processEvent. simpl.
  destruct (Legacy.passes 0 (Legacy.services lc) lorders event w) as [lw ltr].
  destruct (passes 0 (notifiers c) orders event w) as [w2 segs].
  simpl in *. split; assumption.
Qed.

Lemma C9_witness :
  (forall (ls : Legacy.stash) (s : Stash) e d,
     Legacy.EventName ls = EventName s ->
     Legacy.Username ls = Username s ->
     Legacy.discard ls e d = discard s e d) /\
  calls (Legacy.testHandler legacy_one_sink_one_stash
           (fun _ => map_to_list (Legacy.stashes legacy_one_sink_one_stash))
           (inl CreateUser_event) []).1.2 =
    calls (processEvent one_sink_one_stash
             (fun _ => map_to_list (stashes one_sink_one_stash))
             CreateUser_event []).2 /\
  (Legacy.testHandler legacy_one_sink_one_stash
     (fun _ => map_to_list (Legacy.stashes legacy_one_sink_one_stash))
     (inl CreateUser_event) []).1.1 =
    (processEvent one_sink_one_stash
       (fun _ => map_to_list (stashes one_sink_one_stash))
       CreateUser_event []).1.
Proof.
  apply (C9_legacy_same_dispatch legacy_one_sink_one_stash one_sink_one_stash
           (fun _ => map_to_list (Legacy.stashes legacy_one_sink_one_stash))
           (fun _ => map_to_list (stashes one_sink_one_stash))
           CreateUser_event []).
  - vm_compute. reflexivity.
  - constructor; [split; [reflexivity | intros event w; reflexivity] | constructor].
  - intros k. unfold range_of. reflexivity.
  - intros k. unfold range_of. reflexivity.
Defined.

Example legacy_and_current_send_CreateUser :
  calls (processEvent one_sink_one_stash
           (fun _ => map_to_list (stashes one_sink_one_stash))
           CreateUser_event []).2 = [0%nat] /\
  calls (Legacy.testHandler legacy_one_sink_one_stash
           (fun _ => map_to_list (Legacy.stashes legacy_one_sink_one_stash))
           (inl DeleteBucket_event) []).1.2 = [].
Proof. split; vm_compute; reflexivity. Qed.

(** ** Concurrent dispatch *)

(** C7. Two concurrent [processEvent] calls on the controller that [Load]
    builds for a [stdout] notifier, with no registration going on: both
    goroutines take the read lock, both find [s.enc] nil, and both stand
    before the assignment to [s.enc] while holding the read lock: a data
    race on the field of the shared [Stdout] object.  This is so whatever
    the stream and [Encode] are: no call has reached [Encode] yet. *)
Theorem C7_Stdout_Send_races {Console : Type}
    (Encode : notifier.Encoder -> cloudtrail.Event -> Console -> Console * option error)
    (out : Console) (e1 e2 : cloudtrail.Event) :
  exists sh g1 g2,
    Concurrent.run Encode [0; 1; 0; 1; 0; 1]%nat
      (Concurrent.init out ∅ [(e1, []); (e2, [])]) = Some (sh, [g1; g2]) /\
    Concurrent.readers (Concurrent.mu sh) = 2%nat /\
    Concurrent.writer (Concurrent.mu sh) = false /\
    Concurrent.at_pc g1 = Concurrent.AtEncInit /\
    Concurrent.at_pc g2 = Concurrent.AtEncInit /\
    Concurrent.race (sh, [g1; g2]).
Proof.
  eexists _, _, _. split; [reflexivity|].
  repeat (split; [reflexivity|]).
  exists 0%nat, 1%nat. eexists _, _.
  split; [discriminate|]. repeat split.
Qed.

(** Run one after the other, the same two calls meet no such state: the
    first call stores the encoder, the second finds it, and both events
    reach the stream. *)
Example sequential_calls_deliver_both :
  exists sh g1 g2,
    Concurrent.run recording_Encode [0; 0; 0; 0; 0; 0; 1; 1; 1; 1; 1]%nat
      (Concurrent.init [] ∅ [(CreateUser_event, []); (DeleteBucket_event, [])])
    = Some (sh, [g1; g2]) /\
    Concurrent.os_Stdout sh = [CreateUser_event; DeleteBucket_event] /\
    Concurrent.readers (Concurrent.mu sh) = 0%nat /\
    Concurrent.at_pc g1 = Concurrent.Returned /\
    Concurrent.at_pc g2 = Concurrent.Returned.
Proof. eexists _, _, _. repeat split; reflexivity. Qed.

(** * Further properties *)

(** ** Dispatch: worlds, orders and events without fields *)

Section DispatchMore.
Context {World : Type}.
Implicit Types (event : cloudtrail.Event) (w : World).
Implicit Types (svs : list (Notifiers World)).

Lemma discard_blank_event (s : Stash) event (dest : string) :
  aws.StringValue (cloudtrail.EventName event) = "" ->
  aws.StringValue (cloudtrail.Username event) = "" ->
  discard s event dest = false.
Proof.
  intros Hn Hu. apply not_true_is_false. rewrite discard_spec, Hn, Hu.
  intros [[H1 H2] | [H1 H2]]; congruence.
Qed.

Lemma scan_blank_event event name (entries : list (Z * Stash)) :
  aws.StringValue (cloudtrail.EventName event) = "" ->
  aws.StringValue (cloudtrail.Username event) = "" ->
  (scan event name entries).1 = false.
Proof.
  intros Hn Hu. rewrite scan_fst.
  induction entries as [|[id st] rest IH]; simpl; [reflexivity|].
  rewrite (discard_blank_event st event "" Hn Hu). exact IH.
Qed.

(** The calls of the outer loop when every inner loop comes to the same
    decision [b]. *)
Lemma passes_calls_uniform (b : bool) i svs orders event w :
  (forall k name, (scan event name (orders k)).1 = b) ->
  calls (concat (passes i svs orders event w).2) =
    if b then [] else seq i (length svs).
Proof.
  intros Hb. revert i w. induction svs as [|sv rest IH]; intros i w; simpl.
  - destruct b; reflexivity.
  - pose proof (pass_calls i sv (orders i) event w) as Hc.
    destruct (pass i sv (orders i) event w) as [w1 seg].
    specialize (IH (S i) w1).
    destruct (passes (S i) rest orders event w1) as [w2 segs]. simpl in *.
    rewrite calls_app, Hc, IH, Hb. destruct b; reflexivity.
Qed.

(** The world and the outcome lines of one iteration depend on the visiting
    order only through the decision of the inner loop. *)
Lemma pass_outcome i (sv : Notifiers World) (entries : list (Z * Stash)) event w :
  (pass i sv entries event w).1 =
    (if (scan event (Name sv) entries).1 then w else (Send sv event w).1) /\
  outcomes (pass i sv entries event w).2 =
    (if (scan event (Name sv) entries).1
     then [Logged (LogDiscard (Name sv) (aws.StringValue (cloudtrail.EventId event)))]
     else Called i event ::
          match (Send sv event w).2 with
          | Some err =>
              [Logged (LogSendError (Name sv)
                         (aws.StringValue (cloudtrail.EventId event)) err)]
          | None =>
              [Logged (LogSendOk (Name sv)
                         (aws.StringValue (cloudtrail.EventId event)))]
          end).
Proof.
  assert (Hscan : forall name l, outcomes (scan event name l).2 = []).
  { intros name l. induction l as [|[id st] rest IH]; simpl; [reflexivity|].
    destruct (discard st event name); [reflexivity|].
    destruct (scan event name rest) as [d tr]. simpl in *. exact IH. }
  unfold pass. specialize (Hscan (Name sv) entries).
  destruct (scan event (Name sv) entries) as [d tr]. simpl in *.
  destruct d; simpl.
  - split; [reflexivity|]. unfold outcomes in *.
    rewrite List.filter_app, Hscan. reflexivity.
  - destruct (Send sv event w) as [w' [err|]]; simpl;
      (split; [reflexivity|]); unfold outcomes in *;
      rewrite List.filter_app, Hscan; reflexivity.
Qed.

Lemma outcomes_app (t1 t2 : list (Item LogLine)) :
  outcomes (t1 ++ t2) = outcomes t1 ++ outcomes t2.
Proof. unfold outcomes. apply List.filter_app. Qed.

Lemma passes_world (m : gmap Z Stash) i svs orders event w :
  (forall k, range_of m (orders k)) ->
  (passes i svs orders event w).1 =
    if suppressed m event then w else deliver_all svs event w.
Proof.
  intros Hr. revert i w. induction svs as [|sv rest IH]; intros i w; simpl.
  - destruct (suppressed m event); reflexivity.
  - destruct (pass_outcome i sv (orders i) event w) as [Hw _].
    rewrite (scan_fst_range m) in Hw by apply Hr.
    destruct (pass i sv (orders i) event w) as [w1 seg]. simpl in Hw. subst w1.
    specialize (IH (S i)).
    destruct (suppressed m event) eqn:Hs.
    + specialize (IH w).
      destruct (passes (S i) rest orders event w) as [w2 segs]. exact IH.
    + specialize (IH (Send sv event w).1).
      destruct (passes (S i) rest orders event (Send sv event w).1) as [w2 segs].
      exact IH.
Qed.

Lemma passes_order_irrelevant (m : gmap Z Stash) i svs orders orders' event w :
  (forall k, range_of m (orders k)) ->
  (forall k, range_of m (orders' k)) ->
  (passes i svs orders event w).1 = (passes i svs orders' event w).1 /\
  outcomes (concat (passes i svs orders event w).2) =
    outcomes (concat (passes i svs orders' event w).2).
Proof.
  intros Hr Hr'. revert i w. induction svs as [|sv rest IH]; intros i w; simpl.
  - split; reflexivity.
  - destruct (pass_outcome i sv (orders i) event w) as [Hw Ho].
    destruct (pass_outcome i sv (orders' i) event w) as [Hw' Ho'].
    rewrite (scan_fst_range m) in Hw, Ho by apply Hr.
    rewrite (scan_fst_range m) in Hw', Ho' by apply Hr'.
    destruct (pass i sv (orders i) event w) as [w1 seg].
    destruct (pass i sv (orders' i) event w) as [w1' seg'].
    simpl in *. rewrite <- Hw in Hw'. subst w1'.
    specialize (IH (S i) w1).
    destruct (passes (S i) rest orders event w1) as [w2 segs].
    destruct (passes (S i) rest orders' event w1) as [w2' segs'].
    simpl in *. destruct IH as [-> IHo]. split; [reflexivity|].
    rewrite !outcomes_app, Ho, Ho', IHo. reflexivity.
Qed.

End DispatchMore.

(** X2. The world [processEvent] leaves: untouched when some stash matches
    the event; otherwise the result of [Send] of every notifier in
    registration order, each acting on the world the one before it left,
    whether or not it returned an error. *)
Theorem processEvent_world {World : Type}
    (c : Controller World) (orders : nat -> list (Z * Stash))
    (event : cloudtrail.Event) (w : World) :
  (forall k, range_of (stashes c) (orders k)) ->
  (processEvent c orders event w).1 =
    if suppressed (stashes c) event then w
    else deliver_all (notifiers c) event w.
Proof.
  intros Hr. rewrite <- (passes_world (stashes c) 0 (notifiers c) orders event w Hr).
  unfold processEvent.
  destruct (passes 0 (notifiers c) orders event w) as [w' segs]. reflexivity.
Qed.

Lemma processEvent_world_witness :
  (processEvent two_sinks (fun _ => map_to_list (stashes two_sinks))
     CreateUser_event []).1 =
    if suppressed (stashes two_sinks) CreateUser_event then []
    else deliver_all (notifiers two_sinks) CreateUser_event [].
Proof.
  apply (processEvent_world two_sinks (fun _ => map_to_list (stashes two_sinks))
           CreateUser_event []).
  intros k. unfold range_of. reflexivity.
Defined.

(** X3. The order in which the stash map is visited changes nothing but the
    [match] and [noMatch] lines: two runs of [processEvent] that visit the
    same map in different orders leave the same world and the same sequence
    of discard lines, [Send] calls and send outcomes. *)
Theorem processEvent_order_irrelevant {World : Type}
    (c : Controller World) (orders orders' : nat -> list (Z * Stash))
    (event : cloudtrail.Event) (w : World) :
  (forall k, range_of (stashes c) (orders k)) ->
  (forall k, range_of (stashes c) (orders' k)) ->
  (processEvent c orders event w).1 = (processEvent c orders' event w).1 /\
  outcomes (processEvent c orders event w).2 =
    outcomes (processEvent c orders' event w).2.
Proof.
  intros Hr Hr'.
  destruct (passes_order_irrelevant (stashes c) 0 (notifiers c) orders orders'
              event w Hr Hr') as [Hw Ho].
  unfold processEvent.
  destruct (passes 0 (notifiers c) orders event w) as [w1 segs].
  destruct (passes 0 (notifiers c) orders' event w) as [w1' segs'].
  simpl in *. split; assumption.
Qed.

Lemma processEvent_order_irrelevant_witness :
  (processEvent two_sinks_two_stashes
     (fun _ => map_to_list (stashes two_sinks_two_stashes))
     alice_DeleteBucket_event []).1 =
  (processEvent two_sinks_two_stashes
     (fun _ => reverse (map_to_list (stashes two_sinks_two_stashes)))
     alice_DeleteBucket_event []).1 /\
  outcomes (processEvent two_sinks_two_stashes
              (fun _ => map_to_list (stashes two_sinks_two_stashes))
              alice_DeleteBucket_event []).2 =
  outcomes (processEvent two_sinks_two_stashes
              (fun _ => reverse (map_to_list (stashes two_sinks_two_stashes)))
              alice_DeleteBucket_event []).2.
Proof.
  apply (processEvent_order_irrelevant two_sinks_two_stashes
           (fun _ => map_to_list (stashes two_sinks_two_stashes))
           (fun _ => reverse (map_to_list (stashes two_sinks_two_stashes)))
           alice_DeleteBucket_event []).
  - intros k. unfold range_of. reflexivity.
  - intros k. unfold range_of. apply reverse_Permutation.
Defined.

Example visiting_orders_differ_in_scan_lines :
  (processEvent two_sinks_two_stashes
     (fun _ => map_to_list (stashes two_sinks_two_stashes))
     alice_DeleteBucket_event []).2 <>
  (processEvent two_sinks_two_stashes
     (fun _ => reverse (map_to_list (stashes two_sinks_two_stashes)))
     alice_DeleteBucket_event []).2.
Proof. vm_compute. discriminate. Qed.

(** ** Registration: what a sequence of operations builds *)

Section RegistrationMore.
Context {World : Type}.
Implicit Types (c : Controller World) (s : Stash) (ops : list (Op World)).

Lemma added_stashes_length ops :
  length (added_stashes ops) = addStash_count ops.
Proof.
  unfold added_stashes, addStash_count.
  induction ops as [|[s|sv] ops IH]; [reflexivity| |].
  - rewrite filter_cons_True by reflexivity.
    change (S (length (omap (fun op : Op World =>
                match op with OpAddStash s => Some s | OpAddNotifier _ => None end) ops))
            = S (length (filter (fun op => is_addStash op = true) ops))).
    f_equal. exact IH.
  - rewrite filter_cons_False by discriminate. exact IH.
Qed.

Lemma added_stashes_snoc ops (op : Op World) :
  added_stashes (ops ++ [op]) =
    added_stashes ops ++
    match op with OpAddStash s => [s] | OpAddNotifier _ => [] end.
Proof. unfold added_stashes. rewrite omap_app. destruct op; reflexivity. Qed.

Lemma added_notifiers_snoc ops (op : Op World) :
  added_notifiers (ops ++ [op]) =
    added_notifiers ops ++
    match op with OpAddNotifier sv => [sv] | OpAddStash _ => [] end.
Proof. unfold added_notifiers. rewrite omap_app. destruct op; reflexivity. Qed.

Lemma run_ops_built ops :
  Z.of_nat (addStash_count ops) <= GoInt.max_int ->
  notifiers (run_ops ops) = added_notifiers ops /\
  debug (run_ops ops) = false /\
  (forall i, stashes (run_ops ops) !! (Z.of_nat i + 1) = added_stashes ops !! i).
Proof.
  induction ops as [|op ops IH] using rev_ind; intros Hle.
  - split; [reflexivity|]. split; [reflexivity|]. intros i. apply lookup_empty.
  - rewrite addStash_count_app in Hle.
    rewrite run_ops_snoc, added_stashes_snoc, added_notifiers_snoc.
    destruct IH as (Hn & Hdbg & Hs); [lia|].
    destruct (run_ops_dense ops) as [Hd Hsz]; [lia|].
    destruct op as [s|sv].
    + change (addStash_count [OpAddStash s]) with 1%nat in Hle.
      change (apply_op (run_ops ops) (OpAddStash s))
        with (addStash (run_ops ops) s).2.
      destruct (addStash_next (run_ops ops) s Hd) as (_ & _ & Hm & _ & _);
        [rewrite Hsz; lia|].
      split; [rewrite app_nil_r; exact Hn|]. split; [exact Hdbg|].
      intros i. rewrite Hm, Hsz.
      destruct (decide (i = addStash_count ops)) as [->|Hne].
      * rewrite lookup_insert_eq.
        rewrite lookup_app_r by (rewrite added_stashes_length; lia).
        rewrite added_stashes_length, Nat.sub_diag. reflexivity.
      * rewrite lookup_insert_ne by lia. rewrite Hs.
        destruct (decide (i < addStash_count ops)%nat) as [Hlt|Hge].
        -- rewrite lookup_app_l by (rewrite added_stashes_length; lia). reflexivity.
        -- rewrite !lookup_ge_None_2; [reflexivity| |];
             rewrite ?length_app, added_stashes_length; simpl; lia.
    + split; [simpl; rewrite Hn; reflexivity|]. split; [exact Hdbg|].
      intros i. rewrite app_nil_r. apply Hs.
Qed.

End RegistrationMore.

(** X4. What registration builds: after any sequence of [addStash] and
    [addNotifier] calls on a controller from [New] (with the number of
    [addStash] calls within the range of [int]), the notifier sequence is the
    notifiers added, in the order added; the [i]-th stash added is the one
    stored under id [i], and nothing is stored under any other id; [debug] is
    still false. *)
Theorem registration_builds {World : Type} (ops : list (Op World)) :
  Z.of_nat (addStash_count ops) <= GoInt.max_int ->
  notifiers (run_ops ops) = added_notifiers ops /\
  debug (run_ops ops) = false /\
  (forall i, stashes (run_ops ops) !! (Z.of_nat i + 1) = added_stashes ops !! i) /\
  (forall id, id <= 0 -> stashes (run_ops ops) !! id = None).
Proof.
  intros Hle. destruct (run_ops_built ops Hle) as (Hn & Hdbg & Hs).
  repeat (split; [assumption|]).
  intros id Hid. destruct (run_ops_dense ops Hle) as [Hd _].
  apply eq_None_not_Some. intros Hsome. apply Hd in Hsome. lia.
Qed.

Lemma registration_builds_witness :
  notifiers (run_ops [OpAddStash DeleteBucket_stash;
                      OpAddNotifier recording_sink;
                      OpAddStash alice_stash])
    = added_notifiers [OpAddStash DeleteBucket_stash;
                       OpAddNotifier recording_sink;
                       OpAddStash alice_stash] /\
  debug (run_ops [OpAddStash DeleteBucket_stash;
                  OpAddNotifier recording_sink;
                  OpAddStash alice_stash]) = false /\
  (forall i, stashes (run_ops [OpAddStash DeleteBucket_stash;
                               OpAddNotifier recording_sink;
                               OpAddStash alice_stash]) !! (Z.of_nat i + 1)
             = added_stashes [OpAddStash DeleteBucket_stash;
                              OpAddNotifier recording_sink;
                              OpAddStash alice_stash] !! i) /\
  (forall id, id <= 0 ->
     stashes (run_ops [OpAddStash DeleteBucket_stash;
                       OpAddNotifier recording_sink;
                       OpAddStash alice_stash]) !! id = None).
Proof.
  apply (registration_builds [OpAddStash DeleteBucket_stash;
                              OpAddNotifier recording_sink;
                              OpAddStash alice_stash]).
  apply Z.leb_le. vm_compute. reflexivity.
Defined.

(** X5. After any such sequence of registrations, an event is suppressed
    exactly when one of the stashes added so far matches it; the notifiers
    registered play no part in the decision, and further registrations never
    let through an event that was suppressed before. *)
Theorem registered_stashes_decide {World : Type} (ops : list (Op World))
    (event : cloudtrail.Event) :
  Z.of_nat (addStash_count ops) <= GoInt.max_int ->
  suppressed (stashes (run_ops ops)) event =
    existsb (fun s => discard s event "") (added_stashes ops) /\
  (forall ops1 ops2, ops = ops1 ++ ops2 ->
     suppressed (stashes (run_ops ops1)) event = true ->
     suppressed (stashes (run_ops ops)) event = true).
Proof.
  assert (Hmain : forall ops' : list (Op World),
            Z.of_nat (addStash_count ops') <= GoInt.max_int ->
            suppressed (stashes (run_ops ops')) event =
              existsb (fun s => discard s event "") (added_stashes ops')).
  { intros ops' Hle. destruct (run_ops_built ops' Hle) as (_ & _ & Hs).
    destruct (run_ops_dense ops' Hle) as [Hd Hsz].
    apply eq_true_iff_eq. rewrite suppressed_true, existsb_exists. split.
    - intros (id & st & Hl & Hm). exists st. split; [|exact Hm].
      assert (Hr : 1 <= id <= Z.of_nat (size (stashes (run_ops ops')))).
      { apply Hd. eauto. }
      specialize (Hs (Z.to_nat (id - 1))).
      replace (Z.of_nat (Z.to_nat (id - 1)) + 1) with id in Hs by lia.
      rewrite Hl in Hs. apply list_elem_of_In.
      apply list_elem_of_lookup. eauto.
    - intros (st & Hin & Hm).
      apply list_elem_of_In, list_elem_of_lookup in Hin. destruct Hin as [i Hi].
      exists (Z.of_nat i + 1), st. rewrite Hs. split; assumption. }
  intros Hle. split; [apply Hmain; exact Hle|].
  intros ops1 ops2 -> Hsup. rewrite addStash_count_app in Hle.
  rewrite Hmain in Hsup by lia.
  rewrite Hmain by (rewrite addStash_count_app; lia).
  unfold added_stashes. rewrite omap_app, existsb_app.
  unfold added_stashes in Hsup. rewrite Hsup. reflexivity.
Qed.

Lemma registered_stashes_decide_witness :
  suppressed (stashes (run_ops [OpAddStash DeleteBucket_stash;
                                OpAddNotifier recording_sink;
                                OpAddStash alice_stash])) alice_DeleteBucket_event =
    existsb (fun s => discard s alice_DeleteBucket_event "")
      (added_stashes [OpAddStash DeleteBucket_stash;
                      OpAddNotifier recording_sink;
                      OpAddStash alice_stash]) /\
  (forall ops1 ops2,
     [OpAddStash DeleteBucket_stash; OpAddNotifier recording_sink;
      OpAddStash alice_stash] = ops1 ++ ops2 ->
     suppressed (stashes (run_ops ops1)) alice_DeleteBucket_event = true ->
     suppressed (stashes (run_ops [OpAddStash DeleteBucket_stash;
                                   OpAddNotifier recording_sink;
                                   OpAddStash alice_stash]))
       alice_DeleteBucket_event = true).
Proof.
  apply (registered_stashes_decide [OpAddStash DeleteBucket_stash;
                                    OpAddNotifier recording_sink;
                                    OpAddStash alice_stash]
           alice_DeleteBucket_event).
  apply Z.leb_le. vm_compute. reflexivity.
Defined.

(** ** The handlers *)

Section Handlers.
Context {World : Type}.
Implicit Types (c : Controller World).

Lemma serve_stash_posts_from c (requests : list (Stash + error)) :
  dense (stashes c) ->
  Z.of_nat (size (stashes c)) + Z.of_nat (length (decoded_stashes requests))
    <= GoInt.max_int ->
  (serve_stash_posts c requests).2 =
    stash_post_replies (Z.of_nat (size (stashes c))) requests /\
  (serve_stash_posts c requests).1 = (addStashes c (decoded_stashes requests)).2.
Proof.
  revert c. induction requests as [|[s|err] rest IH]; intros c Hd Hle.
  - split; reflexivity.
  - change (decoded_stashes (inl s :: rest)) with (s :: decoded_stashes rest) in *.
    simpl length in Hle.
    destruct (addStash_next c s Hd) as (Hid & _ & _ & Hsz & Hd1); [lia|].
    change (serve_stash_posts c (inl s :: rest))
      with (let '(c1, _, reply) := stashPOSTHandler c (inl s) in
            let '(c2, replies) := serve_stash_posts c1 rest in
            (c2, reply :: replies)).
    change (addStashes c (s :: decoded_stashes rest))
      with (let '(id, c1) := addStash c s in
            let '(ids, c2) := addStashes c1 (decoded_stashes rest) in
            (id :: ids, c2)).
    unfold stashPOSTHandler.
    destruct (addStash c s) as [id c1]. simpl in Hid, Hsz, Hd1.
    specialize (IH c1 Hd1). rewrite Hsz in IH.
    destruct IH as [IHr IHc]; [lia|].
    destruct (serve_stash_posts c1 rest) as [c2 replies].
    destruct (addStashes c1 (decoded_stashes rest)) as [ids c2'].
    simpl in *. subst. split; [|reflexivity].
    f_equal. rewrite Nat2Z.inj_succ. reflexivity.
  - change (decoded_stashes (inr err :: rest)) with (decoded_stashes rest) in *.
    specialize (IH c Hd Hle). destruct IH as [IHr IHc].
    change (serve_stash_posts c (inr err :: rest))
      with (let '(c2, replies) := serve_stash_posts c rest in
            (c2, {| WriteHeader := Some 400; written := err +:+ newline |} :: replies)).
    destruct (serve_stash_posts c rest) as [c2 replies].
    simpl in *. subst. split; reflexivity.
Qed.

Lemma calls_in_handler (tr : list (Item LogLine)) :
  calls (map in_handler tr) = calls tr.
Proof.
  induction tr as [|[l|sv e] tr IH]; [reflexivity| |].
  - exact IH.
  - change (sv :: calls (map in_handler tr) = sv :: calls tr). f_equal. exact IH.
Qed.

End Handlers.

(** X6. Requests to [/stash] served one after the other by
    [stashPOSTHandler] on a controller from [New]: a request that does not
    decode is answered with status 400 and the error text and changes
    nothing; the [k]-th request that decodes is answered [stash k added] and
    its stash is stored under id [k], however many failed requests come in
    between. *)
Theorem stash_posts_number_the_decoded {World : Type}
    (requests : list (Stash + error)) :
  Z.of_nat (length (decoded_stashes requests)) <= GoInt.max_int ->
  (serve_stash_posts (New : Controller World) requests).2 =
    stash_post_replies 0 requests /\
  (serve_stash_posts (New : Controller World) requests).1 =
    (addStashes New (decoded_stashes requests)).2 /\
  (forall i s, decoded_stashes requests !! i = Some s ->
     stashes (serve_stash_posts (New : Controller World) requests).1
       !! (Z.of_nat i + 1) = Some s).
Proof.
  intros Hle.
  destruct (serve_stash_posts_from (New : Controller World) requests dense_empty)
    as [Hr Hc].
  { simpl. rewrite map_size_empty. lia. }
  simpl in Hr. rewrite map_size_empty in Hr.
  split; [exact Hr|]. split; [exact Hc|].
  intros i s Hi. rewrite Hc.
  destruct (addStashes_from (New : Controller World) (decoded_stashes requests)
              dense_empty) as (_ & _ & Hnew & _ & _).
  { simpl. rewrite map_size_empty. lia. }
  specialize (Hnew i s Hi). simpl in Hnew. rewrite map_size_empty in Hnew.
  rewrite <- Hnew. f_equal.
Qed.

Lemma stash_posts_number_the_decoded_witness :
  (serve_stash_posts (New : Controller unit)
     [inl DeleteBucket_stash; inr "unexpected EOF"; inl alice_stash]).2 =
    stash_post_replies 0
      [inl DeleteBucket_stash; inr "unexpected EOF"; inl alice_stash] /\
  (serve_stash_posts (New : Controller unit)
     [inl DeleteBucket_stash; inr "unexpected EOF"; inl alice_stash]).1 =
    (addStashes New
       (decoded_stashes [inl DeleteBucket_stash; inr "unexpected EOF";
                         inl alice_stash])).2 /\
  (forall i s,
     decoded_stashes [inl DeleteBucket_stash; inr "unexpected EOF"; inl alice_stash]
       !! i = Some s ->
     stashes (serve_stash_posts (New : Controller unit)
                [inl DeleteBucket_stash; inr "unexpected EOF"; inl alice_stash]).1
       !! (Z.of_nat i + 1) = Some s).
Proof.
  apply (stash_posts_number_the_decoded (World := unit)
           [inl DeleteBucket_stash; inr "unexpected EOF"; inl alice_stash]).
  apply Z.leb_le. vm_compute. reflexivity.
Defined.

Example stash_post_replies_sample :
  map written (serve_stash_posts (New : Controller unit)
     [inl DeleteBucket_stash; inr "unexpected EOF"; inl alice_stash]).2 =
  ["stash 1 added" +:+ newline; "unexpected EOF" +:+ newline;
   "stash 2 added" +:+ newline].
Proof. vm_compute. reflexivity. Qed.

(** X7. The current [testHandler] and the earlier one, on controllers that
    hold the same stashes and sinks, answer every request alike: when the
    body does not decode both reply 400 with the error text, call no [Send]
    and leave the world as it is; when it decodes both write nothing to the
    response, whatever the notifiers return, invoke [Send] on the same
    notifiers and leave the same world. *)
Theorem testHandler_agrees_with_legacy {World : Type}
    (lc : Legacy.Controller World) (c : Controller World)
    (lorders : nat -> list (Z * Legacy.stash)) (orders : nat -> list (Z * Stash))
    (decoded : cloudtrail.Event + error) (w : World) :
  related lc c ->
  (forall k, range_of (Legacy.stashes lc) (lorders k)) ->
  (forall k, range_of (stashes c) (orders k)) ->
  (testHandler c orders decoded w).1.1 =
    (Legacy.testHandler lc lorders decoded w).1.1 /\
  calls (testHandler c orders decoded w).1.2 =
    calls (Legacy.testHandler lc lorders decoded w).1.2 /\
  (testHandler c orders decoded w).2 =
    reply_of (Legacy.testHandler lc lorders decoded w).2 /\
  (forall err, decoded = inr err ->
     (testHandler c orders decoded w).1.1 = w /\
     calls (testHandler c orders decoded w).1.2 = [] /\
     (testHandler c orders decoded w).2 =
       {| WriteHeader := Some 400; written := err +:+ newline |}) /\
  (forall event, decoded = inl event ->
     (testHandler c orders decoded w).2 = {| WriteHeader := None; written := "" |}).
Proof.
  intros [Hm HF] Hl Hr. rewrite Hm in Hl.
  destruct decoded as [event|err].
  - destruct (passes_agree (stashes c) _ _ lorders orders event Hl Hr HF 0%nat w)
      as [Hw Hc].
    unfold testHandler, Legacy.testHandler, processEvent.
    destruct (Legacy.passes 0 (Legacy.services lc) lorders event w) as [lw ltr].
    destruct (passes 0 (notifiers c) orders event w) as [w2 segs].
    simpl in *. rewrite calls_in_handler.
    split; [congruence|]. split; [congruence|]. split; [reflexivity|].
    split; [intros err; discriminate | intros event' _; reflexivity].
  - simpl. split; [reflexivity|]. split; [reflexivity|]. split; [reflexivity|].
    split; [|intros event; discriminate].
    intros err' Herr. injection Herr as <-. repeat split.
Qed.

Lemma testHandler_agrees_with_legacy_witness :
  (testHandler one_sink_one_stash
     (fun _ => map_to_list (stashes one_sink_one_stash))
     (inl CreateUser_event) []).1.1 =
    (Legacy.testHandler legacy_one_sink_one_stash
       (fun _ => map_to_list (Legacy.stashes legacy_one_sink_one_stash))
       (inl CreateUser_event) []).1.1 /\
  calls (testHandler one_sink_one_stash
           (fun _ => map_to_list (stashes one_sink_one_stash))
           (inl CreateUser_event) []).1.2 =
    calls (Legacy.testHandler legacy_one_sink_one_stash
             (fun _ => map_to_list (Legacy.stashes legacy_one_sink_one_stash))
             (inl CreateUser_event) []).1.2 /\
  (testHandler one_sink_one_stash
     (fun _ => map_to_list (stashes one_sink_one_stash))
     (inl CreateUser_event) []).2 =
    reply_of (Legacy.testHandler legacy_one_sink_one_stash
                (fun _ => map_to_list (Legacy.stashes legacy_one_sink_one_stash))
                (inl CreateUser_event) []).2 /\
  (forall err, (inl CreateUser_event : cloudtrail.Event + error) = inr err ->
     (testHandler one_sink_one_stash
        (fun _ => map_to_list (stashes one_sink_one_stash))
        (inl CreateUser_event) []).1.1 = [] /\
     calls (testHandler one_sink_one_stash
              (fun _ => map_to_list (stashes one_sink_one_stash))
              (inl CreateUser_event) []).1.2 = [] /\
     (testHandler one_sink_one_stash
        (fun _ => map_to_list (stashes one_sink_one_stash))
        (inl CreateUser_event) []).2 =
       {| WriteHeader := Some 400; written := err +:+ newline |}) /\
  (forall event, (inl CreateUser_event : cloudtrail.Event + error) = inl event ->
     (testHandler one_sink_one_stash
        (fun _ => map_to_list (stashes one_sink_one_stash))
        (inl CreateUser_event) []).2 = {| WriteHeader := None; written := "" |}).
Proof.
  apply (testHandler_agrees_with_legacy legacy_one_sink_one_stash one_sink_one_stash
           (fun _ => map_to_list (Legacy.stashes legacy_one_sink_one_stash))
           (fun _ => map_to_list (stashes one_sink_one_stash))
           (inl CreateUser_event) []).
  - split; [vm_compute; reflexivity|].
    constructor; [split; [reflexivity | intros event w; reflexivity] | constructor].
  - intros k. unfold range_of. reflexivity.
  - intros k. unfold range_of. reflexivity.
Defined.

(** ** The two versions, registration and sinks *)

(** X8. Registration keeps the two versions in step: on controllers that
    hold the same stashes and sinks, [addStash] of the earlier version and of
    the current one return the same id and leave controllers that again hold
    the same stashes and sinks, and so do [addService] and [addNotifier] for
    the same sink; the controllers of the two [New] start that way. *)
Theorem registration_keeps_related {World : Type}
    (lc : Legacy.Controller World) (c : Controller World) :
  related lc c ->
  (forall s,
     (Legacy.addStash lc (to_legacy s)).1 = (addStash c s).1 /\
     related (Legacy.addStash lc (to_legacy s)).2 (addStash c s).2) /\
  (forall sv n, same_sink sv n ->
     related (Legacy.addService lc sv) (addNotifier c n)).
Proof.
  intros [Hm HF]. split.
  - intros s. unfold Legacy.addStash, addStash, related. simpl.
    assert (Hlen : GoInt.len (Legacy.stashes lc) = GoInt.len (stashes c)).
    { unfold GoInt.len. rewrite Hm, map_size_fmap. reflexivity. }
    rewrite Hlen. split; [reflexivity|]. split; [|exact HF].
    rewrite Hm, fmap_insert. reflexivity.
  - intros sv n Hsame. unfold Legacy.addService, addNotifier, related. simpl.
    split; [exact Hm|]. apply Forall2_app; [exact HF|].
    constructor; [exact Hsame | constructor].
Qed.

Lemma registration_keeps_related_witness :
  (forall s,
     (Legacy.addStash (Legacy.New : Legacy.Controller unit) (to_legacy s)).1
     = (addStash (New : Controller unit) s).1 /\
     related (Legacy.addStash (Legacy.New : Legacy.Controller unit) (to_legacy s)).2
       (addStash (New : Controller unit) s).2) /\
  (forall sv n, same_sink sv n ->
     related (Legacy.addService (Legacy.New : Legacy.Controller unit) sv)
       (addNotifier (New : Controller unit) n)).
Proof.
  apply (registration_keeps_related (Legacy.New : Legacy.Controller unit)
           (New : Controller unit)).
  split; [vm_compute; reflexivity | constructor].
Defined.

(** X9. The [stdoutService] of the earlier version and the [Stdout] notifier
    are the same sink: the same name and, for every event and every state of
    the object and of the stream, the same new state of both; they differ
    only in that [Stdout.Send] hands on the error of [Encode], which the
    earlier [Send] drops.  Either one leaves [enc] set. *)
Theorem stdoutService_same_sink {Console : Type}
    (Encode : notifier.Encoder -> cloudtrail.Event -> Console -> Console * option error) :
  same_sink (stdoutService.as_service Encode) (notifier.Stdout.as_Notifiers Encode) /\
  (forall s e out,
     (notifier.Stdout.Send Encode s e out).2 =
       (Encode (default notifier.json_NewEncoder_os_Stdout (notifier.enc s)) e out).2 /\
     (notifier.Stdout.Send Encode s e out).1.2 =
       (Encode (default notifier.json_NewEncoder_os_Stdout (notifier.enc s)) e out).1 /\
     is_Some (notifier.enc (notifier.Stdout.Send Encode s e out).1.1)).
Proof.
  split; [split|].
  - reflexivity.
  - intros event [s out]. simpl.
    unfold notifier.Stdout.Send, stdoutService.Send. simpl.
    destruct (notifier.enc s) as [en|];
      destruct (Encode _ event out) as [out' err]; reflexivity.
  - intros s e out. unfold notifier.Stdout.Send.
    destruct (notifier.enc s) as [en|]; simpl;
      destruct (Encode _ e out) as [out' err]; simpl; eauto.
Qed.

(** ** [Load] *)

Section LoadProperties.
Context {Console Net : Type}.
Context (Encode : notifier.Encoder -> cloudtrail.Event -> Console -> Console * option error).
Context (T : notifier.Transport Net).
Context (Quote : string -> string).
Context (visit : gmap string string -> list (string * string)).
Hypothesis visit_range : forall sconfig, range_of sconfig (visit sconfig).

Lemma NewHipchat_ok_iff (sconfig : gmap string string) :
  (exists hc, notifier.NewHipchat (visit sconfig) = inl hc) <->
  (setting sconfig "room" <> "" /\ setting sconfig "token" <> "" /\
   setting sconfig "from" <> "").
Proof.
  rewrite (NewHipchat_closed sconfig (visit sconfig) (visit_range sconfig)).
  destruct (String.eqb_spec (setting sconfig "room") "") as [E1|N1].
  { split; [intros [hc Hhc]; discriminate | intros (H & _); contradiction]. }
  destruct (String.eqb_spec (setting sconfig "token") "") as [E2|N2].
  { split; [intros [hc Hhc]; discriminate | intros (_ & H & _); contradiction]. }
  destruct (String.eqb_spec (setting sconfig "from") "") as [E3|N3].
  { split; [intros [hc Hhc]; discriminate | intros (_ & _ & H); contradiction]. }
  split; [auto | eauto].
Qed.

(** The loop of [Load] on entries that are all acceptable. *)
Lemma Load_range_accepts (entries : list (string * gmap string string))
    (controller : Controller (LoadWorld Console Net)) :
  Forall (fun p => notifier_entry_ok p.1 p.2) entries ->
  exists c, Load_range Encode T Quote visit controller entries = inl c /\
    stashes c = stashes controller /\ debug c = debug controller /\
    map Name (notifiers c) =
      map Name (notifiers controller) ++ map notifier_name_of entries.*1.
Proof.
  intros HF. revert controller.
  induction HF as [|[sname sconfig] rest Hok HF IH]; intros controller.
  - exists controller. simpl. rewrite app_nil_r. auto.
  - simpl in Hok. simpl Load_range.
    destruct Hok as [-> | (-> & Hroom & Htoken & Hfrom)].
    + simpl.
      destruct (IH (addNotifier controller
                      (on_console (notifier.Stdout.as_Notifiers Encode))))
        as (c & Hc & Hs & Hd & Hn).
      exists c. split; [exact Hc|]. split; [exact Hs|]. split; [exact Hd|].
      rewrite Hn. simpl. rewrite map_app, <- app_assoc. reflexivity.
    + simpl.
      destruct (proj2 (NewHipchat_ok_iff sconfig)) as [hc Hhc]; [auto|].
      rewrite Hhc.
      destruct (IH (addNotifier controller
                      (on_network (notifier.Hipchat.as_Notifiers T hc))))
        as (c & Hc & Hs & Hd & Hn).
      exists c. split; [exact Hc|]. split; [exact Hs|]. split; [exact Hd|].
      rewrite Hn. simpl. rewrite map_app, <- app_assoc. reflexivity.
Qed.

(** The loop of [Load] succeeds on acceptable entries only. *)
Lemma Load_range_rejects (entries : list (string * gmap string string))
    (controller c : Controller (LoadWorld Console Net)) :
  Load_range Encode T Quote visit controller entries = inl c ->
  Forall (fun p => notifier_entry_ok p.1 p.2) entries.
Proof.
  revert controller. induction entries as [|[sname sconfig] rest IH];
    intros controller Hc; [constructor|].
  simpl in Hc.
  destruct (String.eqb_spec sname "stdout") as [->|N1].
  { constructor; [left; reflexivity | eapply IH; exact Hc]. }
  destruct (String.eqb_spec sname "hipchat") as [->|N2]; [|discriminate].
  destruct (notifier.NewHipchat (visit sconfig)) as [hc|err] eqn:Hhc; [|discriminate].
  constructor; [|eapply IH; exact Hc].
  right. split; [reflexivity|]. apply NewHipchat_ok_iff. eauto.
Qed.

Lemma range_Forall_lookup {A} (m : gmap string A) (entries : list (string * A))
    (P : string -> A -> Prop) :
  range_of m entries ->
  Forall (fun p => P p.1 p.2) entries <-> (forall k x, m !! k = Some x -> P k x).
Proof.
  unfold range_of. intros HP. rewrite HP, Forall_forall. split.
  - intros H k x Hk. apply (H (k, x)). apply elem_of_map_to_list. exact Hk.
  - intros H [k x] Hin. apply H. apply elem_of_map_to_list. exact Hin.
Qed.

End LoadProperties.

(** X10. Whether [Load] succeeds does not depend on the order in which the
    notifier map or a Hipchat configuration is visited: on a configuration
    that decoded it returns a controller exactly when every key of
    [Notifiers] is [stdout], or [hipchat] with a configuration that gives a
    room, a token and a display name.  A configuration that did not decode
    gives back the decoding error. *)
Theorem Load_succeeds_iff {Console Net : Type}
    (Encode : notifier.Encoder -> cloudtrail.Event -> Console -> Console * option error)
    (T : notifier.Transport Net) (Quote : string -> string)
    (visit : gmap string string -> list (string * string))
    (config : Config.t) (entries : list (string * gmap string string)) :
  (forall sconfig, range_of sconfig (visit sconfig)) ->
  range_of (Config.Notifiers config) entries ->
  ((exists c, Load Encode T Quote visit (inl config) entries = inl c) <->
   (forall sname sconfig, Config.Notifiers config !! sname = Some sconfig ->
      notifier_entry_ok sname sconfig)) /\
  (forall err, Load Encode T Quote visit (inr err) entries = inr err).
Proof.
  intros Hvisit Hr. split; [|reflexivity].
  rewrite <- (range_Forall_lookup (Config.Notifiers config) entries
                notifier_entry_ok Hr).
  unfold Load. split.
  - intros [c Hc]. eapply Load_range_rejects; eassumption.
  - intros HF.
    destruct (Load_range_accepts Encode T Quote visit Hvisit entries New HF)
      as (c & Hc & _).
    exists c. exact Hc.
Qed.

(** X11. The controller [Load] returns has one notifier per key of
    [Notifiers], named [stdout] or [Hipchat], in the order the keys were
    visited, hence at most two; it holds no stash and [debug] is false: the
    [Stashes] and [Debug] of the configuration are not used. *)
Theorem Load_result {Console Net : Type}
    (Encode : notifier.Encoder -> cloudtrail.Event -> Console -> Console * option error)
    (T : notifier.Transport Net) (Quote : string -> string)
    (visit : gmap string string -> list (string * string))
    (config : Config.t) (entries : list (string * gmap string string))
    (c : Controller (LoadWorld Console Net)) :
  (forall sconfig, range_of sconfig (visit sconfig)) ->
  range_of (Config.Notifiers config) entries ->
  Load Encode T Quote visit (inl config) entries = inl c ->
  stashes c = ∅ /\
  debug c = false /\
  map Name (notifiers c) = map notifier_name_of entries.*1 /\
  length (notifiers c) = size (Config.Notifiers config) /\
  (length (notifiers c) <= 2)%nat.
Proof.
  intros Hvisit Hr Hc. unfold Load in Hc.
  pose proof (Load_range_rejects Encode T Quote visit Hvisit entries New c Hc) as HF.
  destruct (Load_range_accepts Encode T Quote visit Hvisit entries New HF)
    as (c' & Hc' & Hs & Hd & Hn).
  rewrite Hc in Hc'. injection Hc' as <-.
  split; [exact Hs|]. split; [exact Hd|]. simpl in Hn.
  assert (Hlen : length (notifiers c) = length entries).
  { rewrite <- (length_map Name), Hn, length_map, length_fmap. reflexivity. }
  split; [exact Hn|]. split.
  - rewrite Hlen. unfold range_of in Hr. rewrite Hr. apply length_map_to_list.
  - rewrite Hlen, <- (length_fmap fst).
    assert (Hnd : NoDup entries.*1).
    { unfold range_of in Hr. rewrite Hr. apply NoDup_fst_map_to_list. }
    change 2%nat with (length ["stdout"; "hipchat"]).
    apply submseteq_length, NoDup_submseteq; [exact Hnd|].
    intros k Hk. apply list_elem_of_fmap in Hk.
    destruct Hk as ([k' sc] & -> & Hin).
    rewrite Forall_forall in HF. specialize (HF _ Hin). simpl in HF. simpl.
    destruct HF as [-> | [-> _]]; set_solver.
Qed.

Lemma Load_succeeds_iff_witness :
  ((exists c, Load recording_Encode (answering 200 None) id map_to_list
                (inl both_notifiers_config)
                (map_to_list (Config.Notifiers both_notifiers_config)) = inl c) <->
   (forall sname sconfig,
      Config.Notifiers both_notifiers_config !! sname = Some sconfig ->
      notifier_entry_ok sname sconfig)) /\
  (forall err, Load recording_Encode (answering 200 None) id map_to_list
                 (inr err) (map_to_list (Config.Notifiers both_notifiers_config))
               = inr err).
Proof.
  apply (Load_succeeds_iff recording_Encode (answering 200 None) id map_to_list
           both_notifiers_config
           (map_to_list (Config.Notifiers both_notifiers_config))).
  - intros sconfig. unfold range_of. reflexivity.
  - unfold range_of. reflexivity.
Defined.

Lemma Load_result_witness :
  stashes both_notifiers_loaded = ∅ /\
  debug both_notifiers_loaded = false /\
  map Name (notifiers both_notifiers_loaded) =
    map notifier_name_of (map_to_list (Config.Notifiers both_notifiers_config)).*1 /\
  length (notifiers both_notifiers_loaded) =
    size (Config.Notifiers both_notifiers_config) /\
  (length (notifiers both_notifiers_loaded) <= 2)%nat.
Proof.
  apply (Load_result recording_Encode (answering 200 None) id map_to_list
           both_notifiers_config
           (map_to_list (Config.Notifiers both_notifiers_config))
           both_notifiers_loaded).
  - intros sconfig. unfold range_of. reflexivity.
  - unfold range_of. reflexivity.
  - vm_compute. reflexivity.
Defined.

Example Load_rejects_unknown_type :
  Load recording_Encode (answering 200 None) (fun s => "<" +:+ s +:+ ">") map_to_list
    (inl {| Config.Listen := ""; Config.Debug := false;
            Config.Notifiers := <["slack" := ∅]> ∅; Config.Stashes := [] |})
    [("slack", ∅)]
  = inr "unknown notifier type <slack>" /\
  Load recording_Encode (answering 200 None) id map_to_list
    (inl {| Config.Listen := ""; Config.Debug := false;
            Config.Notifiers := <["hipchat" := delete "token" room_config]> ∅;
            Config.Stashes := [] |})
    [("hipchat", delete "token" room_config)]
  = inr "could not create Hipchat notifier: missing token".
Proof. split; vm_compute; reflexivity. Qed.

(** ** [NewHipchat] and [Send] *)

(** X12. Every [Hipchat] value [NewHipchat] returns, on any list of entries,
    has a room, a token, a display name and an endpoint, none of them
    empty. *)
Theorem NewHipchat_fields_set (config : list (string * string)) (h : notifier.Hipchat) :
  notifier.NewHipchat config = inl h ->
  notifier.RoomID h <> "" /\ notifier.Token h <> "" /\
  notifier.From h <> "" /\ notifier.Endpoint h <> "".
Proof.
  unfold notifier.NewHipchat.
  destruct (foldl notifier.NewHipchat_switch _ config) as [e r t f]. simpl.
  destruct (String.eqb_spec r "") as [E1|N1]; [discriminate|].
  destruct (String.eqb_spec t "") as [E2|N2]; [discriminate|].
  destruct (String.eqb_spec f "") as [E3|N3]; [discriminate|].
  destruct (String.eqb_spec e "") as [E4|N4]; intros H; injection H as <-; simpl;
    repeat split; try assumption.
  discriminate.
Qed.

Lemma NewHipchat_fields_set_witness :
  notifier.RoomID room_hipchat <> "" /\ notifier.Token room_hipchat <> "" /\
  notifier.From room_hipchat <> "" /\ notifier.Endpoint room_hipchat <> "".
Proof.
  apply (NewHipchat_fields_set (map_to_list room_config) room_hipchat).
  vm_compute. reflexivity.
Defined.

(** X13. The error of [NewHipchat] names the first missing setting in the
    order room, token, display name: [missing room] whenever the room is
    missing, [missing token] when only the room is given, [missing from]
    when room and token are given; the endpoint is never the cause of an
    error. *)
Theorem NewHipchat_error_message
    (config : gmap string string) (order : list (string * string)) :
  range_of config order ->
  (setting config "room" = "" ->
     notifier.NewHipchat order = inr "missing room") /\
  (setting config "room" <> "" -> setting config "token" = "" ->
     notifier.NewHipchat order = inr "missing token") /\
  (setting config "room" <> "" -> setting config "token" <> "" ->
   setting config "from" = "" ->
     notifier.NewHipchat order = inr "missing from") /\
  (forall err, notifier.NewHipchat order = inr err ->
     err = "missing room" \/ err = "missing token" \/ err = "missing from").
Proof.
  intros Hr. rewrite (NewHipchat_closed config order Hr).
  destruct (String.eqb_spec (setting config "room") "") as [E1|N1].
  { repeat split; try contradiction; try reflexivity.
    intros err H. injection H as <-. auto. }
  destruct (String.eqb_spec (setting config "token") "") as [E2|N2].
  { repeat split; try contradiction; try reflexivity.
    intros err H. injection H as <-. auto. }
  destruct (String.eqb_spec (setting config "from") "") as [E3|N3].
  { repeat split; try contradiction; try reflexivity.
    intros err H. injection H as <-. auto. }
  repeat split; try contradiction. intros err H. discriminate.
Qed.

Lemma NewHipchat_error_message_witness :
  (setting (∅ : gmap string string) "room" = "" ->
     notifier.NewHipchat [] = inr "missing room") /\
  (setting (∅ : gmap string string) "room" <> "" ->
   setting (∅ : gmap string string) "token" = "" ->
     notifier.NewHipchat [] = inr "missing token") /\
  (setting (∅ : gmap string string) "room" <> "" ->
   setting (∅ : gmap string string) "token" <> "" ->
   setting (∅ : gmap string string) "from" = "" ->
     notifier.NewHipchat [] = inr "missing from") /\
  (forall err, notifier.NewHipchat [] = inr err ->
     err = "missing room" \/ err = "missing token" \/ err = "missing from").
Proof.
  apply (NewHipchat_error_message ∅ []).
  unfold range_of. rewrite map_to_list_empty. reflexivity.
Defined.

(** X14. [Send] hands at most one request to the HTTP client: exactly one,
    the request [http.NewRequest] built for
    [POST <endpoint>/v2/room/<room>/notification] with the values
    [Bearer <token>] and [application/json] added under the header names
    [Authorization] and [Content-Type], when marshalling and building the
    request succeed,
    and none otherwise, in which case the network is left untouched.
    Recording the requests changes neither the result nor the network. *)
Theorem Send_issues_one_request {Net : Type} (T : notifier.Transport Net)
    (h : notifier.Hipchat) (e : cloudtrail.Event) (net : Net)
    (issued : list notifier.Request) :
  (notifier.Hipchat.Send (recording T) h e (net, issued)).1.2 =
    issued ++ requests_of_Send T h e /\
  (length (requests_of_Send T h e) <= 1)%nat /\
  (notifier.Hipchat.Send (recording T) h e (net, issued)).1.1 =
    (notifier.Hipchat.Send T h e net).1 /\
  (notifier.Hipchat.Send (recording T) h e (net, issued)).2 =
    (notifier.Hipchat.Send T h e net).2 /\
  (requests_of_Send T h e = [] -> (notifier.Hipchat.Send T h e net).1 = net).
Proof.
  unfold notifier.Hipchat.Send, requests_of_Send. cbv zeta.
  change (notifier.json_Marshal (recording T)) with (notifier.json_Marshal T).
  change (notifier.http_NewRequest (recording T)) with (notifier.http_NewRequest T).
  destruct (notifier.json_Marshal T _) as [body|err].
  2:{ simpl. rewrite app_nil_r. repeat split; auto. }
  destruct (notifier.http_NewRequest T "POST" _ body) as [req|err].
  2:{ simpl. rewrite app_nil_r. repeat split; auto. }
  simpl.
  destruct (notifier.http_DefaultClient_Do T _ net) as [net' [resp|err]]; simpl.
  - unfold notifier.ioutil_ReadAll.
    destruct (notifier.Body resp) as [respBody rerr].
    destruct (300 <=? notifier.StatusCode resp); simpl;
      repeat split; auto; discriminate.
  - repeat split; auto; discriminate.
Qed.

(** ** Concurrent calls: the lock, the encoder and the stream *)

Section Interleavings.
Import Concurrent.
Context {Console : Type}.
Context (Encode : notifier.Encoder -> cloudtrail.Event -> Console -> Console * option error).
Implicit Types (sh : Shared Console) (g : goroutine) (gs : list goroutine).
Implicit Types (st : State Console).

Lemma step_inv tid sh gs sh' gs' :
  step Encode tid (sh, gs) = Some (sh', gs') ->
  exists g g', gs !! tid = Some g /\ step1 Encode sh g = Some (sh', g') /\
               gs' = <[tid := g']> gs.
Proof.
  unfold step. destruct (gs !! tid) as [g|]; [|discriminate].
  destruct (step1 Encode sh g) as [[sh1 g1]|] eqn:H1; [|discriminate].
  intros H. injection H as <- <-. exists g, g1. auto.
Qed.

Lemma run_invariant (P : State Console -> Prop) :
  (forall tid st st', P st -> step Encode tid st = Some st' -> P st') ->
  forall schedule st st', P st -> run Encode schedule st = Some st' -> P st'.
Proof.
  intros Hstep schedule. induction schedule as [|tid rest IH]; intros st st' HP Hrun.
  - simpl in Hrun. injection Hrun as <-. exact HP.
  - simpl in Hrun. destruct (step Encode tid st) as [st1|] eqn:Hs; [|discriminate].
    apply (IH st1 st'); [|exact Hrun]. eapply Hstep; eassumption.
Qed.

Lemma insert_split {A} (l : list A) (i : nat) (x y : A) :
  l !! i = Some x ->
  l = take i l ++ x :: drop (S i) l /\
  <[i := y]> l = take i l ++ y :: drop (S i) l.
Proof.
  intros Hi. split.
  - symmetry. apply take_drop_middle. exact Hi.
  - apply insert_take_drop. apply lookup_lt_Some in Hi. exact Hi.
Qed.

Lemma inside_insert gs tid g g' :
  gs !! tid = Some g ->
  (inside (<[tid := g']> gs) + (if holds_RLock g then 1 else 0) =
   inside gs + (if holds_RLock g' then 1 else 0))%nat.
Proof.
  intros Hi. destruct (insert_split gs tid g g' Hi) as [Hl Hl'].
  rewrite Hl'. rewrite Hl at 3. unfold inside.
  rewrite !List.filter_app, !length_app. simpl.
  destruct (holds_RLock g), (holds_RLock g'); simpl; lia.
Qed.

Lemma undelivered_insert gs tid g g' :
  gs !! tid = Some g ->
  undelivered (<[tid := g']> gs) ++ to_deliver g ≡ₚ undelivered gs ++ to_deliver g'.
Proof.
  intros Hi. destruct (insert_split gs tid g g' Hi) as [Hl Hl'].
  rewrite Hl'. rewrite Hl at 3. unfold undelivered.
  rewrite !map_app, !concat_app. simpl.
  rewrite <- !app_assoc. apply Permutation_app_head.
  etransitivity; [apply Permutation_app_comm|]. rewrite <- app_assoc.
  etransitivity; [apply Permutation_app_comm|]. rewrite <- app_assoc.
  apply Permutation_app_head. apply Permutation_app_comm.
Qed.

Lemma lock_inv_step tid st st' :
  lock_inv st -> step Encode tid st = Some st' -> lock_inv st'.
Proof.
  destruct st as [sh gs], st' as [sh' gs']. intros [Hw Hn] Hs. simpl in *.
  destruct (step_inv _ _ _ _ _ Hs) as (g & g' & Hg & H1 & ->).
  pose proof (inside_insert gs tid g g' Hg) as Hi.
  unfold lock_inv. simpl. unfold step1 in H1. unfold holds_RLock in Hi.
  destruct (at_pc g) eqn:Hpc.
  - rewrite Hw in H1. injection H1 as <- <-. simpl in *. split; [reflexivity|]. lia.
  - destruct (scan (event g) "stdout" (order g)).1;
      injection H1 as <- <-; simpl in *; (split; [assumption|]); lia.
  - destruct (s_enc sh); injection H1 as <- <-; simpl in *;
      (split; [assumption|]); lia.
  - injection H1 as <- <-. simpl in *. split; [assumption|]. lia.
  - destruct (s_enc sh) as [en|].
    + destruct (Encode en (event g) (os_Stdout sh)) as [out err].
      injection H1 as <- <-. simpl in *. split; [assumption|]. lia.
    + injection H1 as <- <-. simpl in *. split; [assumption|]. lia.
  - injection H1 as <- <-. simpl in *. split; [assumption|]. lia.
  - discriminate.
Qed.

Lemma warm_inv_step tid st st' :
  warm_inv st -> step Encode tid st = Some st' -> warm_inv st'.
Proof.
  destruct st as [sh gs], st' as [sh' gs']. intros [He Hf] Hs. simpl in *.
  destruct (step_inv _ _ _ _ _ Hs) as (g & g' & Hg & H1 & ->).
  assert (Hgpc : at_pc g <> AtEncInit).
  { rewrite Forall_forall in Hf. apply Hf. apply list_elem_of_lookup. eauto. }
  unfold warm_inv. simpl. unfold step1 in H1.
  destruct (at_pc g) eqn:Hpc; try contradiction; try discriminate.
  - destruct (writer (mu sh)); [discriminate|]. injection H1 as <- <-.
    split; [exact He|]. apply Forall_insert; [exact Hf | discriminate].
  - destruct (scan (event g) "stdout" (order g)).1; injection H1 as <- <-;
      (split; [exact He|]); (apply Forall_insert; [exact Hf | discriminate]).
  - destruct He as [en Hen]. rewrite Hen in H1. injection H1 as <- <-.
    split; [eauto|]. apply Forall_insert; [exact Hf | discriminate].
  - destruct He as [en Hen]. rewrite Hen in H1.
    destruct (Encode en (event g) (os_Stdout sh)) as [out err].
    injection H1 as <- <-. simpl.
    split; [eauto|]. apply Forall_insert; [exact Hf | discriminate].
  - injection H1 as <- <-. split; [exact He|].
    apply Forall_insert; [exact Hf | discriminate].
Qed.

Lemma enc_ready_step tid st st' :
  enc_ready st -> step Encode tid st = Some st' -> enc_ready st'.
Proof.
  destruct st as [sh gs], st' as [sh' gs']. intros Hr Hs.
  destruct (step_inv _ _ _ _ _ Hs) as (g & g' & Hg & H1 & ->).
  unfold enc_ready in *. simpl in *. unfold step1 in H1.
  destruct (at_pc g) eqn:Hpc.
  - destruct (writer (mu sh)); [discriminate|]. injection H1 as <- <-. simpl.
    destruct Hr as [He|Hf]; [left; exact He|right].
    apply Forall_insert; [exact Hf | discriminate].
  - destruct (scan (event g) "stdout" (order g)).1; injection H1 as <- <-; simpl;
      (destruct Hr as [He|Hf]; [left; exact He|right]);
      (apply Forall_insert; [exact Hf | discriminate]).
  - destruct (s_enc sh) as [en|] eqn:Hen; injection H1 as <- <-; simpl.
    + left. exists en. exact Hen.
    + destruct Hr as [[en He]|Hf]; [discriminate|right].
      apply Forall_insert; [exact Hf | discriminate].
  - injection H1 as <- <-. simpl. left. eauto.
  - destruct (s_enc sh) as [en|] eqn:Hen.
    + destruct (Encode en (event g) (os_Stdout sh)) as [out err].
      injection H1 as <- <-. simpl. left. exists en. reflexivity.
    + injection H1 as <- <-. simpl.
      destruct Hr as [[en He]|Hf]; [congruence|right].
      apply Forall_insert; [exact Hf | discriminate].
  - injection H1 as <- <-. simpl.
    destruct Hr as [He|Hf]; [left; exact He|right].
    apply Forall_insert; [exact Hf | discriminate].
  - discriminate.
Qed.

(** What has been handed to [Encode] and what is still to be, together,
    stay the same events, and the stream is what [Encode] made of the
    former. *)
Lemma delivery_step tid st st' (out0 : Console) (done : list cloudtrail.Event) :
  enc_ready st ->
  os_Stdout st.1 = encode_all Encode out0 done ->
  step Encode tid st = Some st' ->
  exists done',
    os_Stdout st'.1 = encode_all Encode out0 done' /\
    done' ++ undelivered st'.2 ≡ₚ done ++ undelivered st.2.
Proof.
  destruct st as [sh gs], st' as [sh' gs']. intros Hready Hout Hs. simpl in *.
  destruct (step_inv _ _ _ _ _ Hs) as (g & g' & Hg & H1 & ->).
  pose proof (undelivered_insert gs tid g g' Hg) as Hu.
  assert (Hin : g ∈ gs) by (apply list_elem_of_lookup; eauto).
  unfold step1 in H1. unfold to_deliver in Hu.
  destruct (at_pc g) eqn:Hpc.
  - destruct (writer (mu sh)); [discriminate|]. injection H1 as <- <-.
    simpl in *. exists done. split; [exact Hout|].
    apply Permutation_app_head. apply (Permutation_app_inv_r _ _ _ Hu).
  - destruct (scan (event g) "stdout" (order g)).1 eqn:Hsc;
      injection H1 as <- <-; simpl in *; exists done; (split; [exact Hout|]);
      apply Permutation_app_head.
    + rewrite !app_nil_r in Hu. exact Hu.
    + apply (Permutation_app_inv_r _ _ _ Hu).
  - destruct (s_enc sh); injection H1 as <- <-; simpl in *;
      exists done; (split; [exact Hout|]);
      apply Permutation_app_head; apply (Permutation_app_inv_r _ _ _ Hu).
  - injection H1 as <- <-. simpl in *. exists done. split; [exact Hout|].
    apply Permutation_app_head. apply (Permutation_app_inv_r _ _ _ Hu).
  - destruct (s_enc sh) as [en|] eqn:Hen.
    + destruct (Encode en (event g) (os_Stdout sh)) as [out err] eqn:HE.
      injection H1 as <- <-. simpl in *.
      exists (done ++ [event g]). split.
      * unfold encode_all. rewrite foldl_snoc. fold (encode_all Encode out0 done).
        rewrite <- Hout. destruct en. rewrite HE. reflexivity.
      * rewrite app_nil_r in Hu. rewrite <- Hu, <- !app_assoc.
        apply Permutation_app_head. apply Permutation_app_comm.
    + exfalso. destruct Hready as [[en He]|Hf]; [simpl in He; congruence|].
      rewrite Forall_forall in Hf. specialize (Hf g Hin). congruence.
  - injection H1 as <- <-. simpl in *. rewrite !app_nil_r in Hu.
    exists done. split; [exact Hout|]. apply Permutation_app_head. exact Hu.
  - discriminate.
Qed.

Lemma run_delivery schedule st st' (out0 : Console) (done : list cloudtrail.Event) :
  enc_ready st ->
  os_Stdout st.1 = encode_all Encode out0 done ->
  run Encode schedule st = Some st' ->
  exists done',
    os_Stdout st'.1 = encode_all Encode out0 done' /\
    done' ++ undelivered st'.2 ≡ₚ done ++ undelivered st.2.
Proof.
  revert st done. induction schedule as [|tid rest IH]; intros st done Hready Hout Hrun.
  - simpl in Hrun. injection Hrun as <-. exists done. split; [exact Hout | reflexivity].
  - simpl in Hrun. destruct (step Encode tid st) as [st1|] eqn:Hs; [|discriminate].
    destruct (delivery_step tid st st1 out0 done Hready Hout Hs) as (d1 & Hout1 & Hp1).
    destruct (IH st1 d1 (enc_ready_step tid st st1 Hready Hs) Hout1 Hrun)
      as (d2 & Hout2 & Hp2).
    exists d2. split; [exact Hout2|]. rewrite Hp2. exact Hp1.
Qed.

Lemma run_length schedule st st' :
  run Encode schedule st = Some st' -> length st'.2 = length st.2.
Proof.
  apply (run_invariant (fun s => length s.2 = length st.2)); [|reflexivity].
  intros tid [sh gs] [sh' gs'] HP Hs. simpl in *.
  destruct (step_inv _ _ _ _ _ Hs) as (g & g' & _ & _ & ->).
  rewrite length_insert. exact HP.
Qed.

End Interleavings.

Lemma init_with_inside {Console} en (out : Console) m requests :
  inside (init_with en out m requests).2 = 0%nat.
Proof. unfold inside. simpl. induction requests as [|r rest IH]; [reflexivity | exact IH]. Qed.

Lemma init_with_undelivered {Console} en (out : Console) (m : gmap Z Stash) requests :
  Forall (fun r => range_of m r.2) requests ->
  undelivered (init_with en out m requests).2 =
    List.filter (fun e => negb (suppressed m e)) (map fst requests).
Proof.
  unfold undelivered. simpl. induction 1 as [|[e o] rest Hr HF IH]; [reflexivity|].
  simpl in *. unfold to_deliver at 1. simpl.
  rewrite (scan_fst_range m e "stdout" o Hr), IH.
  destruct (suppressed m e); reflexivity.
Qed.

Lemma init_with_enc_ready {Console} en (out : Console) m requests :
  enc_ready (init_with en out m requests).
Proof.
  right. simpl. apply Forall_forall. intros g Hg.
  apply list_elem_of_In, in_map_iff in Hg. destruct Hg as (r & <- & _).
  simpl. discriminate.
Qed.

Lemma returned_undelivered (gs : list Concurrent.goroutine) :
  Forall (fun g => Concurrent.at_pc g = Concurrent.Returned) gs ->
  undelivered gs = [] /\ inside gs = 0%nat.
Proof.
  unfold undelivered, inside. induction 1 as [|g rest Hg HF [IH1 IH2]]; [split; reflexivity|].
  simpl. unfold to_deliver, holds_RLock. rewrite Hg. simpl. split; assumption.
Qed.

(** X15. With only [processEvent] calls running, the read lock holds no
    call back: in every state an interleaving of the calls reaches, no writer
    holds the lock, the number of readers is the number of calls between
    [RLock] and [RUnlock], and every call that has not returned can take its
    next step. *)
Theorem read_lock_never_blocks {Console : Type}
    (Encode : notifier.Encoder -> cloudtrail.Event -> Console -> Console * option error)
    (en : option notifier.Encoder) (out : Console) (m : gmap Z Stash)
    (requests : list (cloudtrail.Event * list (Z * Stash)))
    (schedule : list nat) (st : Concurrent.State Console) :
  Concurrent.run Encode schedule (init_with en out m requests) = Some st ->
  Concurrent.writer (Concurrent.mu st.1) = false /\
  Concurrent.readers (Concurrent.mu st.1) = inside st.2 /\
  length st.2 = length requests /\
  (forall tid g, st.2 !! tid = Some g ->
     Concurrent.at_pc g <> Concurrent.Returned ->
     is_Some (Concurrent.step Encode tid st)).
Proof.
  intros Hrun.
  assert (Hinv : lock_inv st).
  { apply (run_invariant Encode lock_inv (lock_inv_step Encode) schedule
             (init_with en out m requests) st); [|exact Hrun].
    split; [reflexivity|]. rewrite init_with_inside. reflexivity. }
  destruct Hinv as [Hw Hn]. split; [exact Hw|]. split; [exact Hn|]. split.
  - rewrite (run_length Encode _ _ _ Hrun). simpl. apply length_map.
  - intros tid g Hg Hpc. destruct st as [sh gs]. simpl in *.
    unfold Concurrent.step. rewrite Hg. unfold Concurrent.step1.
    destruct (Concurrent.at_pc g); try contradiction; try (eexists; reflexivity).
    + rewrite Hw. eexists; reflexivity.
    + destruct (scan _ _ _).1; eexists; reflexivity.
    + destruct (Concurrent.s_enc sh); eexists; reflexivity.
    + destruct (Concurrent.s_enc sh) as [e0|]; [|eexists; reflexivity].
      destruct (Encode e0 _ _) as [o err]. eexists; reflexivity.
Qed.

Lemma read_lock_never_blocks_witness :
  Concurrent.writer
    (Concurrent.mu (state_after recording_Encode [0; 1; 0]%nat (two_calls None)).1)
    = false /\
  Concurrent.readers
    (Concurrent.mu (state_after recording_Encode [0; 1; 0]%nat (two_calls None)).1) =
    inside (state_after recording_Encode [0; 1; 0]%nat (two_calls None)).2 /\
  length (state_after recording_Encode [0; 1; 0]%nat (two_calls None)).2 =
    length [(DeleteBucket_event, [(1, DeleteBucket_stash)]);
            (CreateUser_event, [(1, DeleteBucket_stash)])] /\
  (forall tid g,
     (state_after recording_Encode [0; 1; 0]%nat (two_calls None)).2 !! tid = Some g ->
     Concurrent.at_pc g <> Concurrent.Returned ->
     is_Some (Concurrent.step recording_Encode tid
                (state_after recording_Encode [0; 1; 0]%nat (two_calls None)))).
Proof.
  apply (read_lock_never_blocks recording_Encode None [] (<[1 := DeleteBucket_stash]> ∅)
           [(DeleteBucket_event, [(1, DeleteBucket_stash)]);
            (CreateUser_event, [(1, DeleteBucket_stash)])]
           [0; 1; 0]%nat).
  vm_compute. reflexivity.
Defined.

(** X16. Once the encoder is stored in [s.enc], concurrent [processEvent]
    calls no longer race on it: from a state with [s.enc] set, no
    interleaving reaches a state where two calls are about to access the
    field with one of them writing; the field stays set and no call comes to
    assign it. *)
Theorem no_race_once_encoder_stored {Console : Type}
    (Encode : notifier.Encoder -> cloudtrail.Event -> Console -> Console * option error)
    (en : notifier.Encoder) (out : Console) (m : gmap Z Stash)
    (requests : list (cloudtrail.Event * list (Z * Stash)))
    (schedule : list nat) (st : Concurrent.State Console) :
  Concurrent.run Encode schedule (init_with (Some en) out m requests) = Some st ->
  ~ Concurrent.race st /\
  is_Some (Concurrent.s_enc st.1) /\
  Forall (fun g => Concurrent.at_pc g <> Concurrent.AtEncInit) st.2.
Proof.
  intros Hrun.
  assert (Hinv : warm_inv st).
  { apply (run_invariant Encode warm_inv (warm_inv_step Encode) schedule
             (init_with (Some en) out m requests) st); [|exact Hrun].
    split; [simpl; eauto|]. simpl. apply Forall_forall. intros g Hg.
    apply list_elem_of_In, in_map_iff in Hg. destruct Hg as (r & <- & _).
    simpl. discriminate. }
  destruct Hinv as [He Hf]. split; [|split; assumption].
  rewrite Forall_forall in Hf.
  intros (i & j & gi & gj & _ & Hi & Hj & Hc).
  assert (Hgi : Concurrent.at_pc gi <> Concurrent.AtEncInit).
  { apply Hf. apply list_elem_of_lookup. eauto. }
  assert (Hgj : Concurrent.at_pc gj <> Concurrent.AtEncInit).
  { apply Hf. apply list_elem_of_lookup. eauto. }
  destruct (Concurrent.at_pc gi), (Concurrent.at_pc gj);
    simpl in Hc; try discriminate; contradiction.
Qed.

Lemma no_race_once_encoder_stored_witness :
  (~ Concurrent.race
       (state_after recording_Encode [0; 1; 0; 1; 0; 1]%nat
          (two_unmatched_calls (Some notifier.json_NewEncoder_os_Stdout))) /\
   is_Some (Concurrent.s_enc
              (state_after recording_Encode [0; 1; 0; 1; 0; 1]%nat
                 (two_unmatched_calls (Some notifier.json_NewEncoder_os_Stdout))).1) /\
   Forall (fun g => Concurrent.at_pc g <> Concurrent.AtEncInit)
     (state_after recording_Encode [0; 1; 0; 1; 0; 1]%nat
        (two_unmatched_calls (Some notifier.json_NewEncoder_os_Stdout))).2) /\
  map Concurrent.at_pc
    (state_after recording_Encode [0; 1; 0; 1; 0; 1]%nat
       (two_unmatched_calls (Some notifier.json_NewEncoder_os_Stdout))).2
  = [Concurrent.AtEncode; Concurrent.AtEncode].
Proof.
  split; [|vm_compute; reflexivity].
  apply (no_race_once_encoder_stored recording_Encode
           notifier.json_NewEncoder_os_Stdout []
           (<[1 := DeleteBucket_stash]> ∅)
           [(CreateUser_event, [(1, DeleteBucket_stash)]);
            (ListUsers_event, [(1, DeleteBucket_stash)])]
           [0; 1; 0; 1; 0; 1]%nat).
  vm_compute. reflexivity.
Defined.

(** The same two calls under the same schedule, started before any [Send]:
    both stand before the assignment, and race. *)
Example same_calls_race_before_first_Send :
  map Concurrent.at_pc
    (state_after recording_Encode [0; 1; 0; 1; 0; 1]%nat (two_unmatched_calls None)).2
  = [Concurrent.AtEncInit; Concurrent.AtEncInit] /\
  Concurrent.race
    (state_after recording_Encode [0; 1; 0; 1; 0; 1]%nat (two_unmatched_calls None)).
Proof.
  split; [vm_compute; reflexivity|].
  exists 0%nat, 1%nat. eexists _, _.
  split; [discriminate|]. repeat split.
Qed.

(** X17. In the interleaving model every call hands its event to [Encode]
    at most once: when all the calls of an interleaving have returned, the
    stream is what [Encode] made of the events of the calls that no stash
    matches, each handed to it once per call, in some order, all else left
    as it was; an [Encode] that fails leaves on the stream whatever it
    leaves, and the other calls go on.  The lock is free again. *)
Theorem all_returned_all_delivered {Console : Type}
    (Encode : notifier.Encoder -> cloudtrail.Event -> Console -> Console * option error)
    (en : option notifier.Encoder) (out : Console) (m : gmap Z Stash)
    (requests : list (cloudtrail.Event * list (Z * Stash)))
    (schedule : list nat) (st : Concurrent.State Console) :
  Forall (fun r => range_of m r.2) requests ->
  Concurrent.run Encode schedule (init_with en out m requests) = Some st ->
  Forall (fun g => Concurrent.at_pc g = Concurrent.Returned) st.2 ->
  (exists encoded,
     encoded ≡ₚ List.filter (fun e => negb (suppressed m e)) (map fst requests) /\
     Concurrent.os_Stdout st.1 = encode_all Encode out encoded) /\
  Concurrent.readers (Concurrent.mu st.1) = 0%nat.
Proof.
  intros Hr Hrun Hdone.
  destruct (returned_undelivered st.2 Hdone) as [Hu Hi].
  split.
  - destruct (run_delivery Encode schedule (init_with en out m requests) st out []
                (init_with_enc_ready en out m requests) eq_refl Hrun)
      as (encoded & Hout & Hp).
    exists encoded. split; [|exact Hout].
    rewrite Hu, app_nil_r, app_nil_l in Hp. rewrite Hp.
    rewrite (init_with_undelivered en out m requests Hr). reflexivity.
  - assert (Hinv : lock_inv st).
    { apply (run_invariant Encode lock_inv (lock_inv_step Encode) schedule
               (init_with en out m requests) st); [|exact Hrun].
      split; [reflexivity|]. rewrite init_with_inside. reflexivity. }
    destruct Hinv as [_ Hn]. rewrite Hn. exact Hi.
Qed.

Lemma all_returned_all_delivered_witness :
  (exists encoded,
     encoded ≡ₚ
       List.filter (fun e => negb (suppressed (<[1 := DeleteBucket_stash]> ∅) e))
         (map fst [(CreateUser_event, [(1, DeleteBucket_stash)]);
                   (ListUsers_event, [(1, DeleteBucket_stash)])]) /\
     Concurrent.os_Stdout
       (state_after e2_failing_Encode [0; 1; 0; 1; 0; 1; 0; 1; 1; 0; 0; 1]%nat
          (two_unmatched_calls None)).1
     = encode_all e2_failing_Encode [] encoded) /\
  Concurrent.readers (Concurrent.mu
    (state_after e2_failing_Encode [0; 1; 0; 1; 0; 1; 0; 1; 1; 0; 0; 1]%nat
       (two_unmatched_calls None)).1) = 0%nat.
Proof.
  apply (all_returned_all_delivered e2_failing_Encode None []
           (<[1 := DeleteBucket_stash]> ∅)
           [(CreateUser_event, [(1, DeleteBucket_stash)]);
            (ListUsers_event, [(1, DeleteBucket_stash)])]
           [0; 1; 0; 1; 0; 1; 0; 1; 1; 0; 0; 1]%nat).
  - repeat constructor.
  - vm_compute. reflexivity.
  - vm_compute. repeat constructor.
Defined.

(** In that run the call for [e2] gets the error of [Encode] and nothing of
    it reaches the stream; the other call writes its event. *)
Example failing_Encode_loses_only_its_event :
  Concurrent.os_Stdout
    (state_after e2_failing_Encode [0; 1; 0; 1; 0; 1; 0; 1; 1; 0; 0; 1]%nat
       (two_unmatched_calls None)).1
  = [ListUsers_event] /\
  map Concurrent.sent
    (state_after e2_failing_Encode [0; 1; 0; 1; 0; 1; 0; 1; 1; 0; 0; 1]%nat
       (two_unmatched_calls None)).2
  = [Some (Some "write /dev/stdout: broken pipe"); Some None].
Proof. split; vm_compute; reflexivity. Qed.

(** ** Dispatch: what reaches the notifiers *)

Section Watching.
Context {World : Type}.
Implicit Types (event : cloudtrail.Event) (w : World).
Implicit Types (svs : list (Notifiers World)) (seen : list (nat * cloudtrail.Event)).

(** Watching a notifier changes neither what its iteration does to the world
    nor what it logs; the calls kept are those the iteration made. *)
Lemma pass_observed i (sv : Notifiers World) (entries : list (Z * Stash)) event w seen :
  pass i (observed i sv) entries event (w, seen) =
    (((pass i sv entries event w).1,
      seen ++ sends_to (calls (pass i sv entries event w).2) event),
     (pass i sv entries event w).2).
Proof.
  unfold pass. change (Name (observed i sv)) with (Name sv).
  pose proof (scan_calls event (Name sv) entries) as Hc.
  destruct (scan event (Name sv) entries) as [d tr]. simpl in Hc.
  destruct d.
  - simpl. rewrite calls_app, Hc. simpl. rewrite app_nil_r. reflexivity.
  - change (Send (observed i sv) event (w, seen))
      with (let '(w', err) := Send sv event w in ((w', seen ++ [(i, event)]), err)).
    destruct (Send sv event w) as [w' [err|]]; simpl;
      rewrite calls_app, Hc; reflexivity.
Qed.

Lemma sends_to_app (l1 l2 : list nat) event :
  sends_to (l1 ++ l2) event = sends_to l1 event ++ sends_to l2 event.
Proof. unfold sends_to. apply map_app. Qed.

Lemma passes_observed i svs orders event w seen :
  (passes i (observe_from i svs) orders event (w, seen)).1 =
    ((passes i svs orders event w).1,
     seen ++ sends_to (calls (concat (passes i svs orders event w).2)) event) /\
  (passes i (observe_from i svs) orders event (w, seen)).2 =
    (passes i svs orders event w).2.
Proof.
  revert i w seen. induction svs as [|sv rest IH]; intros i w seen.
  - simpl. rewrite app_nil_r. split; reflexivity.
  - change (observe_from i (sv :: rest))
      with (observed i sv :: observe_from (S i) rest).
    change (passes i (observed i sv :: observe_from (S i) rest) orders event (w, seen))
      with (let '(w1, seg) := pass i (observed i sv) (orders i) event (w, seen) in
            let '(w2, segs) := passes (S i) (observe_from (S i) rest) orders event w1 in
            (w2, seg :: segs)).
    change (passes i (sv :: rest) orders event w)
      with (let '(w1, seg) := pass i sv (orders i) event w in
            let '(w2, segs) := passes (S i) rest orders event w1 in
            (w2, seg :: segs)).
    rewrite pass_observed.
    destruct (pass i sv (orders i) event w) as [w1 seg]. cbn [fst snd].
    specialize (IH (S i) w1 (seen ++ sends_to (calls seg) event)).
    destruct (passes (S i) (observe_from (S i) rest) orders event
                (w1, seen ++ sends_to (calls seg) event)) as [w2o segso].
    destruct (passes (S i) rest orders event w1) as [w2 segs].
    cbn [fst snd] in *. destruct IH as [-> ->]. split; [|reflexivity].
    cbn [concat]. rewrite calls_app, sends_to_app, app_assoc. reflexivity.
Qed.

Lemma processEvent_observed (c : Controller World) orders event w seen :
  (processEvent (observing c) orders event (w, seen)).1 =
    ((processEvent c orders event w).1,
     seen ++ sends_to (calls (processEvent c orders event w).2) event) /\
  (processEvent (observing c) orders event (w, seen)).2 =
    (processEvent c orders event w).2.
Proof.
  destruct (passes_observed 0 (notifiers c) orders event w seen) as [Hw Ht].
  unfold processEvent. change (notifiers (observing c)) with (observe_from 0 (notifiers c)).
  destruct (passes 0 (observe_from 0 (notifiers c)) orders event (w, seen)) as [wo segso].
  destruct (passes 0 (notifiers c) orders event w) as [w' segs].
  cbn [fst snd] in *. subst. split; reflexivity.
Qed.

(** The world of the outer loop when every inner loop comes to the same
    decision [b]. *)
Lemma passes_world_uniform (b : bool) i svs orders event w :
  (forall k name, (scan event name (orders k)).1 = b) ->
  (passes i svs orders event w).1 = if b then w else deliver_all svs event w.
Proof.
  intros Hb. revert i w. induction svs as [|sv rest IH]; intros i w; simpl.
  - destruct b; reflexivity.
  - destruct (pass_outcome i sv (orders i) event w) as [Hw _]. rewrite Hb in Hw.
    destruct (pass i sv (orders i) event w) as [w1 seg]. simpl in Hw. subst w1.
    specialize (IH (S i)). destruct b.
    + specialize (IH w).
      destruct (passes (S i) rest orders event w) as [w2 segs]. exact IH.
    + specialize (IH (Send sv event w).1).
      destruct (passes (S i) rest orders event (Send sv event w).1) as [w2 segs].
      exact IH.
Qed.

(** The inner loop on an order split at its first matching stash. *)
Lemma scan_at_first_match event name (pre post : list (Z * Stash)) id st :
  Forall (fun p => discard p.2 event name = false) pre ->
  discard st event name = true ->
  scan event name (pre ++ (id, st) :: post) =
    (true, map (fun p => Logged (LogNoMatch p.1)) pre ++ [Logged (LogMatch id)]).
Proof.
  intros Hpre Hm. induction Hpre as [|[id0 st0] pre Hd Hpre IH]; simpl.
  - rewrite Hm. reflexivity.
  - simpl in Hd. rewrite Hd, IH. reflexivity.
Qed.

End Watching.

(** C2. If some stash of the controller matches the event, then for every
    registered notifier [processEvent] does not invoke its [Send], whatever
    order the stash map is visited in: run with every notifier watched, it
    leaves the world as it was and the list of calls received empty; and the
    evaluation of stashes for that notifier stops at the first match: for
    any split of the visiting order at its first matching stash, the
    iteration logs one [noMatch] line for each stash before it, one [match]
    line for it, the [discard] line, and nothing for the stashes after it. *)
Theorem C2_match_suppresses_and_stops {World : Type}
    (c : Controller World) (orders : nat -> list (Z * Stash))
    (event : cloudtrail.Event) (w : World)
    (i : nat) (N : Notifiers World) (id : Z) (st : Stash) :
  (forall k, range_of (stashes c) (orders k)) ->
  notifiers c !! i = Some N ->
  stashes c !! id = Some st ->
  discard st event (Name N) = true ->
  (processEvent (observing c) orders event (w, [])).1 = (w, []) /\
  (processEvent c orders event w).1 = w /\
  (i ∉ calls (processEvent c orders event w).2) /\
  (exists pre id1 st1 post,
     orders i = pre ++ (id1, st1) :: post /\
     Forall (fun p => discard p.2 event (Name N) = false) pre /\
     discard st1 event (Name N) = true /\
     (passes 0 (notifiers c) orders event w).2 !! i =
       Some (map (fun p => Logged (LogNoMatch p.1)) pre ++
             [Logged (LogMatch id1);
              Logged (LogDiscard (Name N) (aws.StringValue (cloudtrail.EventId event)))])) /\
  (forall pre id1 st1 post,
     orders i = pre ++ (id1, st1) :: post ->
     Forall (fun p => discard p.2 event (Name N) = false) pre ->
     discard st1 event (Name N) = true ->
     (passes 0 (notifiers c) orders event w).2 !! i =
       Some (map (fun p => Logged (LogNoMatch p.1)) pre ++
             [Logged (LogMatch id1);
              Logged (LogDiscard (Name N) (aws.StringValue (cloudtrail.EventId event)))])).
Proof.
  intros Hr HN Hst Hd.
  assert (Hsup : suppressed (stashes c) event = true).
  { apply suppressed_true. exists id, st. split; [exact Hst|].
    rewrite <- Hd. apply discard_filters_only; reflexivity. }
  assert (Hcalls : calls (processEvent c orders event w).2 = []).
  { rewrite processEvent_trace, (passes_calls (stashes c)), Hsup by exact Hr.
    reflexivity. }
  assert (Hworld : (processEvent c orders event w).1 = w).
  { pose proof (passes_world (stashes c) 0 (notifiers c) orders event w Hr) as Hw.
    rewrite Hsup in Hw. unfold processEvent.
    destruct (passes 0 (notifiers c) orders event w) as [w' segs]. exact Hw. }
  assert (Hseg : forall pre id1 st1 post,
     orders i = pre ++ (id1, st1) :: post ->
     Forall (fun p => discard p.2 event (Name N) = false) pre ->
     discard st1 event (Name N) = true ->
     (passes 0 (notifiers c) orders event w).2 !! i =
       Some (map (fun p => Logged (LogNoMatch p.1)) pre ++
             [Logged (LogMatch id1);
              Logged (LogDiscard (Name N) (aws.StringValue (cloudtrail.EventId event)))])).
  { intros pre id1 st1 post Ho Hpre Hm.
    destruct (passes_lookup 0 (notifiers c) orders event w i N HN) as [wi ->].
    simpl. f_equal. unfold pass.
    rewrite Ho, (scan_at_first_match event (Name N) pre post id1 st1 Hpre Hm).
    rewrite <- app_assoc. reflexivity. }
  split; [|split; [exact Hworld|split; [|split; [|exact Hseg]]]].
  - destruct (processEvent_observed c orders event w []) as [-> _].
    rewrite Hworld, Hcalls. reflexivity.
  - rewrite Hcalls. apply not_elem_of_nil.
  - assert (Hscan : (scan event (Name N) (orders i)).1 = true).
    { rewrite (scan_fst_range (stashes c)) by apply Hr. exact Hsup. }
    destruct (scan_stops_at_first_match _ _ _ Hscan)
      as (pre & id1 & st1 & post & Ho & Hpre & Hm & _).
    exists pre, id1, st1, post. repeat (split; [assumption|]).
    apply (Hseg pre id1 st1 post Ho Hpre Hm).
Qed.

Lemma C2_witness :
  ((processEvent (observing two_sinks_three_stashes) (fun _ => in_id_order)
      DeleteBucket_event ([], [])).1 = ([], []) /\
   (processEvent two_sinks_three_stashes (fun _ => in_id_order)
      DeleteBucket_event []).1 = [] /\
   (1%nat ∉ calls (processEvent two_sinks_three_stashes (fun _ => in_id_order)
                     DeleteBucket_event []).2) /\
   (exists pre id1 st1 post,
      in_id_order = pre ++ (id1, st1) :: post /\
      Forall (fun p => discard p.2 DeleteBucket_event (Name recording_sink) = false) pre /\
      discard st1 DeleteBucket_event (Name recording_sink) = true /\
      (passes 0 (notifiers two_sinks_three_stashes) (fun _ => in_id_order)
         DeleteBucket_event []).2 !! 1%nat =
        Some (map (fun p => Logged (LogNoMatch p.1)) pre ++
              [Logged (LogMatch id1);
               Logged (LogDiscard (Name recording_sink)
                         (aws.StringValue (cloudtrail.EventId DeleteBucket_event)))])) /\
   (forall pre id1 st1 post,
      in_id_order = pre ++ (id1, st1) :: post ->
      Forall (fun p => discard p.2 DeleteBucket_event (Name recording_sink) = false) pre ->
      discard st1 DeleteBucket_event (Name recording_sink) = true ->
      (passes 0 (notifiers two_sinks_three_stashes) (fun _ => in_id_order)
         DeleteBucket_event []).2 !! 1%nat =
        Some (map (fun p => Logged (LogNoMatch p.1)) pre ++
              [Logged (LogMatch id1);
               Logged (LogDiscard (Name recording_sink)
                         (aws.StringValue (cloudtrail.EventId DeleteBucket_event)))]))) /\
  (passes 0 (notifiers two_sinks_three_stashes) (fun _ => in_id_order)
     DeleteBucket_event []).2 !! 1%nat =
    Some [Logged (LogNoMatch 1); Logged (LogMatch 2);
          Logged (LogDiscard "stdout" "e1")].
Proof.
  split; [|vm_compute; reflexivity].
  apply (C2_match_suppresses_and_stops two_sinks_three_stashes
           (fun _ => in_id_order) DeleteBucket_event [] 1 recording_sink
           2 DeleteBucket_stash).
  - intros k. unfold range_of.
    apply (Permutation_trans (l' := reverse in_id_order));
      [symmetry; apply reverse_Permutation | vm_compute; reflexivity].
  - reflexivity.
  - vm_compute. reflexivity.
  - reflexivity.
Defined.

(** C3. [processEvent] runs one iteration per registered notifier, in
    registration order: iteration [i] is the loop body for the [i]-th
    notifier, which evaluates the stashes and, unless one matches, invokes
    its [Send].  When no stash matches, every notifier's [Send] is applied,
    once and in registration order, each to the world the one before it
    left, whatever each [Send] returns: run with every notifier watched, the
    calls received are one per notifier, in order, and the world is the one
    all the [Send]s made; an error from one [Send] keeps no later notifier
    from being evaluated or sent to.  [processEvent] has no result through
    which an error could reach its caller. *)
Theorem C3_every_notifier_attempted {World : Type}
    (c : Controller World) (orders : nat -> list (Z * Stash))
    (event : cloudtrail.Event) (w : World) :
  (forall k, range_of (stashes c) (orders k)) ->
  length (passes 0 (notifiers c) orders event w).2 = length (notifiers c) /\
  (forall i sv, notifiers c !! i = Some sv ->
     exists wi, (passes 0 (notifiers c) orders event w).2 !! i =
                  Some (pass i sv (orders i) event wi).2) /\
  calls (processEvent c orders event w).2 =
    (if suppressed (stashes c) event then [] else seq 0 (length (notifiers c))) /\
  (forall i j dest id err seg,
     (passes 0 (notifiers c) orders event w).2 !! i = Some seg ->
     Logged (LogSendError dest id err) ∈ seg ->
     (i < j < length (notifiers c))%nat ->
     j ∈ calls (processEvent c orders event w).2) /\
  (processEvent (observing c) orders event (w, [])).1 =
    (if suppressed (stashes c) event
     then (w, [])
     else (deliver_all (notifiers c) event w,
           sends_to (seq 0 (length (notifiers c))) event)) /\
  (processEvent c orders event w).1 =
    (if suppressed (stashes c) event then w
     else deliver_all (notifiers c) event w) /\
  (processEvent (observing c) orders event (w, [])).2 =
    (processEvent c orders event w).2.
Proof.
  intros Hr.
  assert (Hcalls : calls (processEvent c orders event w).2 =
    (if suppressed (stashes c) event then [] else seq 0 (length (notifiers c)))).
  { rewrite processEvent_trace. apply passes_calls. exact Hr. }
  assert (Hworld : (processEvent c orders event w).1 =
    (if suppressed (stashes c) event then w
     else deliver_all (notifiers c) event w)).
  { rewrite <- (passes_world (stashes c) 0 (notifiers c) orders event w Hr).
    unfold processEvent.
    destruct (passes 0 (notifiers c) orders event w) as [w' segs]. reflexivity. }
  destruct (processEvent_observed c orders event w []) as [Hobs Htr].
  split; [apply passes_length|]. split; [|split; [exact Hcalls|]].
  { intros i sv Hi. apply (passes_lookup 0 (notifiers c) orders event w i sv Hi). }
  split; [|split; [|split; [exact Hworld | exact Htr]]].
  - intros i j dest id err seg Hseg Herr Hij.
    rewrite Hcalls.
    destruct (suppressed (stashes c) event) eqn:Hsup.
    + exfalso.
      assert (Hlt : (i < length (notifiers c))%nat) by lia.
      apply lookup_lt_is_Some_2 in Hlt. destruct Hlt as [sv Hsv].
      destruct (passes_lookup 0 (notifiers c) orders event w i sv Hsv) as [wi Hwi].
      rewrite Hseg in Hwi. injection Hwi as ->. simpl in Herr.
      unfold pass in Herr.
      pose proof (scan_fst_range (stashes c) event (Name sv) (orders i) (Hr i)) as Hf.
      rewrite Hsup in Hf.
      pose proof (scan_stops_at_first_match event (Name sv) (orders i) Hf)
        as (pre & id1 & st1 & post & _ & _ & _ & Htr').
      destruct (scan event (Name sv) (orders i)) as [d tr]. simpl in *. subst d tr.
      simpl in Herr. rewrite !elem_of_app in Herr.
      destruct Herr as [[Hin | Hin] | Hin].
      * apply list_elem_of_In, in_map_iff in Hin.
        destruct Hin as (p & Heq & _). discriminate.
      * apply list_elem_of_singleton in Hin. discriminate.
      * apply list_elem_of_singleton in Hin. discriminate.
    + apply elem_of_seq. lia.
  - rewrite Hobs, Hworld, Hcalls.
    destruct (suppressed (stashes c) event); reflexivity.
Qed.

Lemma C3_witness :
  (length (passes 0 (notifiers two_sinks) (fun _ => map_to_list (stashes two_sinks))
             CreateUser_event []).2 = length (notifiers two_sinks) /\
   (forall i sv, notifiers two_sinks !! i = Some sv ->
      exists wi, (passes 0 (notifiers two_sinks)
                    (fun _ => map_to_list (stashes two_sinks))
                    CreateUser_event []).2 !! i =
                   Some (pass i sv (map_to_list (stashes two_sinks))
                           CreateUser_event wi).2) /\
   calls (processEvent two_sinks (fun _ => map_to_list (stashes two_sinks))
            CreateUser_event []).2 =
     (if suppressed (stashes two_sinks) CreateUser_event then []
      else seq 0 (length (notifiers two_sinks))) /\
   (forall i j dest id err seg,
      (passes 0 (notifiers two_sinks) (fun _ => map_to_list (stashes two_sinks))
         CreateUser_event []).2 !! i = Some seg ->
      Logged (LogSendError dest id err) ∈ seg ->
      (i < j < length (notifiers two_sinks))%nat ->
      j ∈ calls (processEvent two_sinks (fun _ => map_to_list (stashes two_sinks))
                   CreateUser_event []).2) /\
   (processEvent (observing two_sinks) (fun _ => map_to_list (stashes two_sinks))
      CreateUser_event ([], [])).1 =
     (if suppressed (stashes two_sinks) CreateUser_event
      then ([], [])
      else (deliver_all (notifiers two_sinks) CreateUser_event [],
            sends_to (seq 0 (length (notifiers two_sinks))) CreateUser_event)) /\
   (processEvent two_sinks (fun _ => map_to_list (stashes two_sinks))
      CreateUser_event []).1 =
     (if suppressed (stashes two_sinks) CreateUser_event then []
      else deliver_all (notifiers two_sinks) CreateUser_event []) /\
   (processEvent (observing two_sinks) (fun _ => map_to_list (stashes two_sinks))
      CreateUser_event ([], [])).2 =
     (processEvent two_sinks (fun _ => map_to_list (stashes two_sinks))
        CreateUser_event []).2) /\
  (processEvent (observing two_sinks) (fun _ => map_to_list (stashes two_sinks))
     CreateUser_event ([], [])).1 =
    ([CreateUser_event], [(0%nat, CreateUser_event); (1%nat, CreateUser_event)]) /\
  (Send failing_sink CreateUser_event []).2 = Some "unexpected status 404 - ".
Proof.
  split; [|split; vm_compute; reflexivity].
  apply (C3_every_notifier_attempted two_sinks
           (fun _ => map_to_list (stashes two_sinks)) CreateUser_event []).
  intros k. unfold range_of. reflexivity.
Defined.

(** X1. An event with neither an event name nor a user name (nil or empty)
    is matched by no stash, so [processEvent] invokes [Send] on every
    registered notifier, once and in order, whatever stashes are registered
    and however they are visited: run with every notifier watched, the calls
    received are one per notifier with that event, and the world is the one
    all the [Send]s made. *)
Theorem blank_event_reaches_every_notifier {World : Type}
    (c : Controller World) (orders : nat -> list (Z * Stash))
    (event : cloudtrail.Event) (w : World) :
  aws.StringValue (cloudtrail.EventName event) = "" ->
  aws.StringValue (cloudtrail.Username event) = "" ->
  (forall s dest, discard s event dest = false) /\
  calls (processEvent c orders event w).2 = seq 0 (length (notifiers c)) /\
  (processEvent (observing c) orders event (w, [])).1 =
    (deliver_all (notifiers c) event w,
     sends_to (seq 0 (length (notifiers c))) event) /\
  (processEvent c orders event w).1 = deliver_all (notifiers c) event w.
Proof.
  intros Hn Hu.
  assert (Hscan : forall k name, (scan event name (orders k)).1 = false).
  { intros k name. apply scan_blank_event; assumption. }
  assert (Hcalls : calls (processEvent c orders event w).2 =
                     seq 0 (length (notifiers c))).
  { rewrite processEvent_trace. apply (passes_calls_uniform false). exact Hscan. }
  assert (Hworld : (processEvent c orders event w).1 =
                     deliver_all (notifiers c) event w).
  { pose proof (passes_world_uniform false 0 (notifiers c) orders event w Hscan) as Hw.
    unfold processEvent.
    destruct (passes 0 (notifiers c) orders event w) as [w' segs]. exact Hw. }
  split; [intros s dest; apply discard_blank_event; assumption|].
  split; [exact Hcalls|]. split; [|exact Hworld].
  destruct (processEvent_observed c orders event w []) as [-> _].
  rewrite Hworld, Hcalls. reflexivity.
Qed.

Lemma blank_event_reaches_every_notifier_witness :
  ((forall s dest,
      discard s {| cloudtrail.EventId := Some "e4"; cloudtrail.EventName := None;
                   cloudtrail.Username := Some ""; cloudtrail.CloudTrailEvent := None |}
        dest = false) /\
   calls (processEvent two_sinks_one_stash
            (fun _ => map_to_list (stashes two_sinks_one_stash))
            {| cloudtrail.EventId := Some "e4"; cloudtrail.EventName := None;
               cloudtrail.Username := Some ""; cloudtrail.CloudTrailEvent := None |}
            []).2
   = seq 0 (length (notifiers two_sinks_one_stash)) /\
   (processEvent (observing two_sinks_one_stash)
      (fun _ => map_to_list (stashes two_sinks_one_stash))
      {| cloudtrail.EventId := Some "e4"; cloudtrail.EventName := None;
         cloudtrail.Username := Some ""; cloudtrail.CloudTrailEvent := None |}
      ([], [])).1
   = (deliver_all (notifiers two_sinks_one_stash)
        {| cloudtrail.EventId := Some "e4"; cloudtrail.EventName := None;
           cloudtrail.Username := Some ""; cloudtrail.CloudTrailEvent := None |} [],
      sends_to (seq 0 (length (notifiers two_sinks_one_stash)))
        {| cloudtrail.EventId := Some "e4"; cloudtrail.EventName := None;
           cloudtrail.Username := Some ""; cloudtrail.CloudTrailEvent := None |}) /\
   (processEvent two_sinks_one_stash
      (fun _ => map_to_list (stashes two_sinks_one_stash))
      {| cloudtrail.EventId := Some "e4"; cloudtrail.EventName := None;
         cloudtrail.Username := Some ""; cloudtrail.CloudTrailEvent := None |}
      []).1
   = deliver_all (notifiers two_sinks_one_stash)
       {| cloudtrail.EventId := Some "e4"; cloudtrail.EventName := None;
          cloudtrail.Username := Some ""; cloudtrail.CloudTrailEvent := None |} []) /\
  (processEvent two_sinks_one_stash
     (fun _ => map_to_list (stashes two_sinks_one_stash))
     {| cloudtrail.EventId := Some "e4"; cloudtrail.EventName := None;
        cloudtrail.Username := Some ""; cloudtrail.CloudTrailEvent := None |}
     []).1
  = [{| cloudtrail.EventId := Some "e4"; cloudtrail.EventName := None;
        cloudtrail.Username := Some ""; cloudtrail.CloudTrailEvent := None |}].
Proof.
  split; [|vm_compute; reflexivity].
  apply (blank_event_reaches_every_notifier two_sinks_one_stash
           (fun _ => map_to_list (stashes two_sinks_one_stash))
           {| cloudtrail.EventId := Some "e4"; cloudtrail.EventName := None;
              cloudtrail.Username := Some ""; cloudtrail.CloudTrailEvent := None |}
           []); reflexivity.
Defined.
